(** * The chat tutor's request pipeline

    A shallow embedding of the chat route handler [POST] (the route module that
    imports [classifyScope], [loadAllMdxDocuments], [chunkText],
    [retrieveTopChunksKeyword], [buildSystemPrompt], [buildUserPrompt] and the
    [openai] client) together with models of these collaborators.

    The handler is an [async] function whose body is wrapped in one
    [try]/[catch]; it is embedded in a small monad that threads the log of
    collaborator calls and carries the thrown value of a failing stage. *)

From Stdlib Require Import List String Ascii ZArith QArith Bool Arith Lia.
From Stdlib Require Import Sorting.Sorted.
From Equations Require Import Equations.
Import ListNotations.

Local Close Scope Q_scope.
Local Open Scope string_scope.
Local Open Scope list_scope.
Local Open Scope nat_scope.

(** ** Data model *)

(** [type ChatMsg = { role: "user" | "assistant"; content: string }] *)
Inductive Role := User | Assistant.

Record ChatMsg := mkChatMsg { role : Role; content : string }.

(** A loaded lesson: [{ path, text }]. *)
Record Document := mkDocument { path : string; doc_text : string }.

(** The options object handed to [chunkText]. *)
Record ChunkConfig := mkChunkConfig {
  chunkSize : Z;
  chunkOverlap : Z;
  sourceLabel : string
}.

Record Chunk := mkChunk {
  chunk_text : string;
  chunk_source : string;
  chunk_index : nat
}.

Record ScoredChunk := mkScored { chunk : Chunk; score : nat }.

Record ScopeDecision := mkScope { allowed : bool; refusal : string }.

(** What a stage can throw.  The handler only ever looks at [e?.message]; the
    kind is the error taxonomy (it plays no part in the handler). *)
Inductive ErrorKind :=
| ConfigurationError
| MalformedRequest
| LoadError
| CompletionServiceError
| OtherError.

Record Thrown := mkThrown { kind : ErrorKind; message : option string }.

(** The chat request sent to the completion service. *)
Inductive PromptRole := RoleSystem | RoleUser.

Record PromptMsg := mkPromptMsg { prompt_role : PromptRole; prompt_content : string }.

Record CompletionRequest := mkCompletionRequest {
  model : string;
  temperature : Q;
  messages : list PromptMsg
}.

(** The part of the completion that the handler reads:
    [resp.choices[0]?.message?.content]. *)
Record CompletionMessage := mkCompletionMessage { msg_content : option string }.
Record Choice := mkChoice { choice_message : option CompletionMessage }.
Record CompletionResponse := mkCompletionResponse { choices : list Choice }.

(** How a parsed body that does not have the type of the handler's cast makes
    lines 15-16 throw: its [messages] is neither missing nor iterable (a
    number, a boolean, a plain object), so the spread [[...messages]] throws;
    or the search from the end meets a [null] element before any message of
    role user, so [m.role] throws. *)
Inductive BodyFault :=
| MessagesNotIterable
| NullMessage.

(** The parsed request body: the JSON value [null]; a value of the type of
    the handler's cast, [{ messages: ChatMsg[] }], whose [messages] field may
    be missing; or a value not of that type on which the handler throws.
    (An ill-typed body on which nothing throws and whose last user content
    is a string behaves as the well-typed body with that content; one whose
    last user content is not a string is not covered.) *)
Inductive JsonBody :=
| JsonNull
| JsonObject (body_messages : option (list ChatMsg))
| JsonIllTyped (fault : BodyFault).

(** What [await req.json()] gives: a thrown parse error or the parsed body. *)
Definition RequestJson : Type := Thrown + JsonBody.

(** [NextResponse.json({ reply })] and [new NextResponse(text, { status })]. *)
Inductive Response :=
| JsonResponse (status : Z) (reply : string)
| TextResponse (status : Z) (body : string).

Definition response_status (r : Response) : Z :=
  match r with
  | JsonResponse s _ => s
  | TextResponse s _ => s
  end.

(** ** The calls a request makes, in order *)

Inductive Call :=
| CallReqJson
| CallClassifyScope (query : string)
| CallLoadAllMdxDocuments
| CallChunkText (text : string) (cfg : ChunkConfig)
| CallRetrieveTopChunksKeyword (query : string) (chunks : list Chunk) (k : Z)
| CallBuildSystemPrompt
| CallBuildUserPrompt (query : string) (top : list Chunk)
| CallCompletionsCreate (request : CompletionRequest).

(** ** The monad of the handler: a call log and a thrown value *)

Module Pipeline.

Definition M (A : Type) : Type := list Call -> (Thrown + A) * list Call.

Definition ret {A} (a : A) : M A := fun log => (inr a, log).

Definition throw {A} (e : Thrown) : M A := fun log => (inl e, log).

Definition bind {A B} (m : M A) (f : A -> M B) : M B :=
  fun log =>
    match m log with
    | (inl e, log') => (inl e, log')
    | (inr a, log') => f a log'
    end.

(** [try { m } catch (e) { h e }] *)
Definition try_catch {A} (m : M A) (h : Thrown -> M A) : M A :=
  fun log =>
    match m log with
    | (inl e, log') => h e log'
    | (inr a, log') => (inr a, log')
    end.

(** Calling a collaborator: the call is logged, then its outcome is
    returned or thrown. *)
Definition call {A} (c : Call) (outcome : Thrown + A) : M A :=
  fun log => (outcome, log ++ [c]).

(** [xs.flatMap(f)] where [f] may throw: left to right, stopping at the
    first throw. *)
Fixpoint flatMapM {A B} (f : A -> M (list B)) (xs : list A) : M (list B) :=
  match xs with
  | [] => ret []
  | x :: rest =>
      bind (f x) (fun ys =>
      bind (flatMapM f rest) (fun zs =>
      ret (ys ++ zs)))
  end.

End Pipeline.

Import Pipeline.

Declare Scope pipeline_scope.
Delimit Scope pipeline_scope with pipeline.
Notation "x <- m ;; k" := (bind m (fun x => k))
  (at level 61, m at next level, right associativity) : pipeline_scope.
Local Open Scope pipeline_scope.

(** ** The route handler *)

(** The collaborators of the handler.  Every one of them is a JavaScript
    function and may throw. *)
Record Collaborators := mkCollaborators {
  classifyScope_of : string -> Thrown + ScopeDecision;
  loadAllMdxDocuments_of : Thrown + list Document;
  chunkText_of : string -> ChunkConfig -> Thrown + list Chunk;
  retrieveTopChunksKeyword_of : string -> list Chunk -> Z -> Thrown + list Chunk;
  buildSystemPrompt_of : Thrown + string;
  buildUserPrompt_of : string -> list Chunk -> Thrown + string;
  completionsCreate_of : CompletionRequest -> Thrown + CompletionResponse
}.

(** The [TypeError] of reading [.messages] of [null]. *)
Definition null_body_error : Thrown :=
  mkThrown OtherError (Some "Cannot read properties of null (reading 'messages')").

(** The [TypeError] of an ill-typed body. *)
Definition body_fault_error (fault : BodyFault) : Thrown :=
  match fault with
  | MessagesNotIterable => mkThrown OtherError (Some "messages is not iterable")
  | NullMessage =>
      mkThrown OtherError (Some "Cannot read properties of null (reading 'role')")
  end.

(** [body.messages ?? []] *)
Definition messagesOrEmpty (field : option (list ChatMsg)) : list ChatMsg :=
  match field with
  | Some ms => ms
  | None => []
  end.

Definition isUser (m : ChatMsg) : bool :=
  match role m with
  | User => true
  | Assistant => false
  end.

(** [[...messages].reverse().find((m) => m.role === "user")] *)
Definition lastUserMessage (msgs : list ChatMsg) : option ChatMsg :=
  find isUser (rev msgs).

(** [...?.content ?? ""] *)
Definition lastUserContent (msgs : list ChatMsg) : string :=
  match lastUserMessage msgs with
  | Some m => content m
  | None => ""
  end.

(** [resp.choices[0]?.message?.content] *)
Definition firstContent (resp : CompletionResponse) : option string :=
  match choices resp with
  | [] => None
  | c :: _ =>
      match choice_message c with
      | None => None
      | Some m => msg_content m
      end
  end.

(** [e?.message ?? "Server error"] *)
Definition errorText (e : Thrown) : string :=
  match message e with
  | Some m => m
  | None => "Server error"
  end.

(** The options literal of the handler's [chunkText] call. *)
Definition handlerChunkConfig (d : Document) : ChunkConfig :=
  mkChunkConfig 900 120 (path d).

(** The argument of [openai.chat.completions.create]. *)
Definition completionRequest (system user : string) : CompletionRequest :=
  mkCompletionRequest "gpt-4.1-mini" (2 # 10)%Q
    [mkPromptMsg RoleSystem system; mkPromptMsg RoleUser user].

Section Handler.

Variable env : Collaborators.

(** [const body = await req.json(); const messages = body.messages ?? []],
    and for an ill-typed body the throw of line 16 (no collaborator is called
    in between). *)
Definition readMessages (req : RequestJson) : M (list ChatMsg) :=
  body <- call CallReqJson req ;;
  match body with
  | JsonObject field => ret (messagesOrEmpty field)
  | JsonNull => throw null_body_error
  | JsonIllTyped fault => throw (body_fault_error fault)
  end.

(** [docs.flatMap((d) => chunkText(d.text, {...}))] *)
Definition chunkAll (docs : list Document) : M (list Chunk) :=
  flatMapM
    (fun d =>
       call (CallChunkText (doc_text d) (handlerChunkConfig d))
            (chunkText_of env (doc_text d) (handlerChunkConfig d)))
    docs.

(** The body of the [try] block. *)
Definition handle (req : RequestJson) : M Response :=
  msgs <- readMessages req ;;
  let lastUser := lastUserContent msgs in
  scope <- call (CallClassifyScope lastUser) (classifyScope_of env lastUser) ;;
  if negb (allowed scope) then
    ret (JsonResponse 200 (refusal scope))
  else
    docs <- call CallLoadAllMdxDocuments (loadAllMdxDocuments_of env) ;;
    chunks <- chunkAll docs ;;
    top <- call (CallRetrieveTopChunksKeyword lastUser chunks 6)
                (retrieveTopChunksKeyword_of env lastUser chunks 6) ;;
    system <- call CallBuildSystemPrompt (buildSystemPrompt_of env) ;;
    user <- call (CallBuildUserPrompt lastUser top)
                 (buildUserPrompt_of env lastUser top) ;;
    resp <- call (CallCompletionsCreate (completionRequest system user))
                 (completionsCreate_of env (completionRequest system user)) ;;
    let reply := match firstContent resp with
                 | Some c => c
                 | None => "No response."
                 end in
    ret (JsonResponse 200 reply).

(** [export async function POST(req)] *)
Definition POST (req : RequestJson) : M Response :=
  try_catch (handle req)
            (fun e => ret (TextResponse 500 (errorText e))).

(** *** What the chunking stage amounts to *)

(** The outcome of chunking all documents: the chunks of every document in
    order, or the first thrown value. *)
Fixpoint chunkOutcome (docs : list Document) : Thrown + list Chunk :=
  match docs with
  | [] => inr []
  | d :: rest =>
      match chunkText_of env (doc_text d) (handlerChunkConfig d) with
      | inl e => inl e
      | inr ys =>
          match chunkOutcome rest with
          | inl e => inl e
          | inr zs => inr (ys ++ zs)
          end
      end
  end.

(** The [chunkText] calls made: one per document up to the first throw. *)
Fixpoint chunkCalls (docs : list Document) : list Call :=
  match docs with
  | [] => []
  | d :: rest =>
      CallChunkText (doc_text d) (handlerChunkConfig d)
      :: match chunkText_of env (doc_text d) (handlerChunkConfig d) with
         | inl _ => []
         | inr _ => chunkCalls rest
         end
  end.

(** The calls of a request that runs all its stages. *)
Definition fullLog (q : string) (docs : list Document) (chunks top : list Chunk)
    (system user : string) : list Call :=
  [CallReqJson; CallClassifyScope q; CallLoadAllMdxDocuments]
  ++ chunkCalls docs
  ++ [CallRetrieveTopChunksKeyword q chunks 6; CallBuildSystemPrompt;
      CallBuildUserPrompt q top;
      CallCompletionsCreate (completionRequest system user)].

(** *** The ways a stage of a request can fail *)

(** [StageFailure req e]: on request [req], the stages before some stage all
    succeed and that stage throws [e]. *)
Inductive StageFailure : RequestJson -> Thrown -> Prop :=
| ParseFails e :
    StageFailure (inl e) e
| BodyIsNull :
    StageFailure (inr JsonNull) null_body_error
| BodyIsIllTyped fault :
    StageFailure (inr (JsonIllTyped fault)) (body_fault_error fault)
| ScopeFails field e :
    classifyScope_of env (lastUserContent (messagesOrEmpty field)) = inl e ->
    StageFailure (inr (JsonObject field)) e
| LoadFails field d e :
    classifyScope_of env (lastUserContent (messagesOrEmpty field)) = inr d ->
    allowed d = true ->
    loadAllMdxDocuments_of env = inl e ->
    StageFailure (inr (JsonObject field)) e
| ChunkFails field d docs e :
    classifyScope_of env (lastUserContent (messagesOrEmpty field)) = inr d ->
    allowed d = true ->
    loadAllMdxDocuments_of env = inr docs ->
    chunkOutcome docs = inl e ->
    StageFailure (inr (JsonObject field)) e
| RetrieveFails field d docs chunks e :
    classifyScope_of env (lastUserContent (messagesOrEmpty field)) = inr d ->
    allowed d = true ->
    loadAllMdxDocuments_of env = inr docs ->
    chunkOutcome docs = inr chunks ->
    retrieveTopChunksKeyword_of env
      (lastUserContent (messagesOrEmpty field)) chunks 6 = inl e ->
    StageFailure (inr (JsonObject field)) e
| SystemPromptFails field d docs chunks top e :
    classifyScope_of env (lastUserContent (messagesOrEmpty field)) = inr d ->
    allowed d = true ->
    loadAllMdxDocuments_of env = inr docs ->
    chunkOutcome docs = inr chunks ->
    retrieveTopChunksKeyword_of env
      (lastUserContent (messagesOrEmpty field)) chunks 6 = inr top ->
    buildSystemPrompt_of env = inl e ->
    StageFailure (inr (JsonObject field)) e
| UserPromptFails field d docs chunks top system e :
    classifyScope_of env (lastUserContent (messagesOrEmpty field)) = inr d ->
    allowed d = true ->
    loadAllMdxDocuments_of env = inr docs ->
    chunkOutcome docs = inr chunks ->
    retrieveTopChunksKeyword_of env
      (lastUserContent (messagesOrEmpty field)) chunks 6 = inr top ->
    buildSystemPrompt_of env = inr system ->
    buildUserPrompt_of env (lastUserContent (messagesOrEmpty field)) top = inl e ->
    StageFailure (inr (JsonObject field)) e
| CompletionFails field d docs chunks top system user e :
    classifyScope_of env (lastUserContent (messagesOrEmpty field)) = inr d ->
    allowed d = true ->
    loadAllMdxDocuments_of env = inr docs ->
    chunkOutcome docs = inr chunks ->
    retrieveTopChunksKeyword_of env
      (lastUserContent (messagesOrEmpty field)) chunks 6 = inr top ->
    buildSystemPrompt_of env = inr system ->
    buildUserPrompt_of env (lastUserContent (messagesOrEmpty field)) top = inr user ->
    completionsCreate_of env (completionRequest system user) = inl e ->
    StageFailure (inr (JsonObject field)) e.

End Handler.

(** The stages after the scope gate. *)
Definition isDownstream (c : Call) : bool :=
  match c with
  | CallReqJson | CallClassifyScope _ => false
  | _ => true
  end.

Definition isCompletionCall (c : Call) : bool :=
  match c with
  | CallCompletionsCreate _ => true
  | _ => false
  end.

(** How many times the completion service was called. *)
Definition completionCalls (log : list Call) : nat :=
  List.length (filter isCompletionCall log).

Definition is4xx (r : Response) : bool :=
  ((400 <=? response_status r) && (response_status r <=? 499))%Z.

(** ** The chunker *)

(** [text.slice(from, to)] for [0 <= from]: the characters at offsets
    [from .. to - 1], clamped to the text. *)
Definition slice (s : string) (from to : nat) : string :=
  substring from (to - from) s.

(** Modelled from the spec: the chunker module ([chunkText] of
    [@/lib/mdx/chunkMdx]) is not among the sources.  The window loop: slide a
    window of width [size] over the text in steps of [step] until the
    remaining text is shorter than the window; the final chunk is the tail;
    nothing is produced once no text remains. *)
Equations? chunkWindows (text label : string) (size step : nat)
    (Hstep : 0 < step) (start index : nat) : list Chunk
    by wf (String.length text - start) lt :=
  chunkWindows text label size step Hstep start index
    with le_lt_dec (String.length text) start := {
    | left _ := [];
    | right _ with le_lt_dec size (String.length text - start) := {
      | left _ :=
          mkChunk (slice text start (start + size)) label index
          :: chunkWindows text label size step Hstep (start + step) (S index);
      | right _ :=
          [mkChunk (slice text start (String.length text)) label index] } }.
Proof. lia. Qed.

(** The step of a validated configuration is positive. *)
Definition step_positive (size overlap : Z) (H : (overlap < size)%Z) :
  0 < Z.to_nat (size - overlap) := ltac:(lia).

Definition configurationError : Thrown :=
  mkThrown ConfigurationError (Some "chunkOverlap must be smaller than chunkSize").

(** Modelled from the spec: [chunkText] of the missing chunker module.  The
    invariant [chunkOverlap < chunkSize] is validated first and its violation
    is thrown as a configuration error; otherwise the windows step by
    [chunkSize - chunkOverlap]. *)
Definition chunkText (text : string) (cfg : ChunkConfig) : Thrown + list Chunk :=
  match Z_lt_dec (chunkOverlap cfg) (chunkSize cfg) with
  | left H =>
      inr (chunkWindows text (sourceLabel cfg)
             (Z.to_nat (chunkSize cfg))
             (Z.to_nat (chunkSize cfg - chunkOverlap cfg))
             (step_positive _ _ H) 0 0)
  | right _ => inl configurationError
  end.



(** The part of a chunk that the previous chunk did not already cover:
    [chunk.text.slice(overlap)]. *)
Definition freshPart (overlap : nat) (c : Chunk) : string :=
  slice (chunk_text c) overlap (String.length (chunk_text c)).

(** The first chunk whole, then the fresh part of every later chunk. *)
Definition reassemble (overlap : nat) (chunks : list Chunk) : string :=
  match chunks with
  | [] => ""
  | c :: rest =>
      (chunk_text c ++ String.concat "" (map (freshPart overlap) rest))%string
  end.

(** ** Tokens *)

Definition isDigit (c : ascii) : bool :=
  (48 <=? nat_of_ascii c) && (nat_of_ascii c <=? 57).

Definition isUpper (c : ascii) : bool :=
  (65 <=? nat_of_ascii c) && (nat_of_ascii c <=? 90).

Definition isLower (c : ascii) : bool :=
  (97 <=? nat_of_ascii c) && (nat_of_ascii c <=? 122).

Definition isWordChar (c : ascii) : bool :=
  isDigit c || isUpper c || isLower c.

Definition toLower (c : ascii) : ascii :=
  if isUpper c then ascii_of_nat (nat_of_ascii c + 32) else c.

(** Space, tab, line feed, vertical tab, form feed, carriage return. *)
Definition isWhitespace (c : ascii) : bool :=
  (nat_of_ascii c =? 32) || ((9 <=? nat_of_ascii c) && (nat_of_ascii c <=? 13)).

Definition flushToken (cur : string) : list string :=
  match cur with
  | EmptyString => []
  | _ => [cur]
  end.

(** The word-like tokens of [s], lower-cased; [cur] is the token being read. *)
Fixpoint tokensFrom (s : string) (cur : string) : list string :=
  match s with
  | EmptyString => flushToken cur
  | String c rest =>
      if isWordChar c
      then tokensFrom rest (cur ++ String (toLower c) EmptyString)%string
      else flushToken cur ++ tokensFrom rest EmptyString
  end.

Definition tokenize (s : string) : list string := tokensFrom s EmptyString.

Definition hasToken (t : string) (ts : list string) : bool :=
  existsb (String.eqb t) ts.

(** ** The keyword retriever *)

(** Stable insertion into a list ranked highest score first: the new element
    goes before the first element that does not beat it. *)
Fixpoint insertByScore (x : ScoredChunk) (l : list ScoredChunk) : list ScoredChunk :=
  match l with
  | [] => [x]
  | y :: rest =>
      if score y <=? score x
      then x :: y :: rest
      else y :: insertByScore x rest
  end.

(** [scored.sort((a, b) => b.score - a.score)]: a stable sort, highest score
    first. *)
Definition sortByScore (l : list ScoredChunk) : list ScoredChunk :=
  fold_right insertByScore [] l.

(** Highest score first. *)
Definition outranks (a b : ScoredChunk) : Prop := score b <= score a.

Section Retriever.

(** The stop-word table is a constant of the missing module. *)
Variable stopwords : list string.

Definition queryTerms (query : string) : list string :=
  filter (fun t => negb (hasToken t stopwords)) (tokenize query).

(** Modelled from the spec: the scoring of the missing retriever module
    ([@/lib/mdx/retrieveKeyword]): the number of query tokens that the chunk's
    text contains. *)
Definition scoreChunk (query : string) (c : Chunk) : nat :=
  List.length
    (filter (fun t => hasToken t (tokenize (chunk_text c))) (queryTerms query)).

Definition scoreAll (query : string) (chunks : list Chunk) : list ScoredChunk :=
  map (fun c => mkScored c (scoreChunk query c)) chunks.

(** The chunks with a nonzero score, ranked. *)
Definition rankChunks (query : string) (chunks : list Chunk) : list ScoredChunk :=
  sortByScore (filter (fun s => 0 <? score s) (scoreAll query chunks)).

(** Modelled from the spec: [retrieveTopChunksKeyword] of the missing
    retriever module.  Nothing for [k <= 0]; otherwise the [k] best of the
    chunks with a nonzero score, highest first, ties in input order. *)
Definition retrieveTopChunksKeyword (query : string) (chunks : list Chunk) (k : Z)
  : list Chunk :=
  if (k <=? 0)%Z then []
  else map chunk (firstn (Z.to_nat k) (rankChunks query chunks)).

(** A scored chunk carries the score of its chunk. *)
Definition wellScored (query : string) (s : ScoredChunk) : Prop :=
  score s = scoreChunk query (chunk s).

(** The relevant chunks, in input order. *)
Definition relevantChunks (query : string) (chunks : list Chunk) : list Chunk :=
  filter (fun c => 0 <? scoreChunk query c) chunks.

End Retriever.

(** ** The scope classifier *)

Fixpoint isBlank (s : string) : bool :=
  match s with
  | EmptyString => true
  | String c rest => isWhitespace c && isBlank rest
  end.

Section Classifier.

(** The term lists and the refusal text are constants of the missing module. *)
Variable allowTerms denyTerms : list string.
Variable refusalText : string.

Definition mentionsAny (terms tokens : list string) : bool :=
  existsb (fun t => hasToken t terms) tokens.

(** Modelled from the spec: [classifyScope] of the missing scope module
    ([@/lib/scope/h2Scope]).  Blank input is out of scope; otherwise the
    message is in scope when it mentions no deny-listed term and at least one
    allow-listed term.  A refusal carries the fixed refusal text. *)
Definition classifyScope (input : string) : ScopeDecision :=
  if isBlank input then mkScope false refusalText
  else
    let tokens := tokenize input in
    if mentionsAny denyTerms tokens then mkScope false refusalText
    else if mentionsAny allowTerms tokens then mkScope true ""
    else mkScope false refusalText.

End Classifier.

(** ** The prompt builder *)

(** Modelled from the spec: [buildSystemPrompt] of the missing prompt module
    ([@/lib/llm/prompt]): a fixed instruction string. *)
Definition buildSystemPrompt : string :=
  "You are an H2 Physics tutor. Answer only from the provided context; do not fabricate.".

Definition renderChunk (c : Chunk) : string :=
  ("[" ++ chunk_source c ++ "] " ++ chunk_text c)%string.

(** Modelled from the spec: [buildUserPrompt] of the missing prompt module:
    the retrieved chunks, each attributed to its source, then the query; an
    empty retrieval is said so. *)
Definition buildUserPrompt (query : string) (top : list Chunk) : string :=
  match top with
  | [] => ("No relevant material was found. Question: " ++ query)%string
  | _ => (String.concat " " (map renderChunk top) ++ " Question: " ++ query)%string
  end.

(** ** A concrete deployment *)

(** The handler wired to the models above, over given lesson documents and a
    given completion service. *)
Definition deployment (stop allow deny : list string) (refusalText : string)
    (docs : Thrown + list Document)
    (service : CompletionRequest -> Thrown + CompletionResponse) : Collaborators :=
  mkCollaborators
    (fun q => inr (classifyScope allow deny refusalText q))
    docs
    chunkText
    (fun q cs k => inr (retrieveTopChunksKeyword stop q cs k))
    (inr buildSystemPrompt)
    (fun q top => inr (buildUserPrompt q top))
    service.

Definition demoStopwords : list string := ["what"; "is"; "a"; "the"].

Definition demoRefusal : string := "I can only help with H2 Physics questions.".

Definition demoDocs : list Document :=
  [mkDocument "measurements/vectors" "A vector has magnitude and direction.";
   mkDocument "measurements/prefixes" "Prefixes scale the base units."].

Definition demoService (reply : option string) (_ : CompletionRequest)
  : Thrown + CompletionResponse :=
  inr (mkCompletionResponse [mkChoice (Some (mkCompletionMessage reply))]).

Definition demoEnv (docs : Thrown + list Document)
    (service : CompletionRequest -> Thrown + CompletionResponse) : Collaborators :=
  deployment demoStopwords ["vector"; "prefixes"; "units"] ["pizza"]
    demoRefusal docs service.

Definition userSays (s : string) : RequestJson :=
  inr (JsonObject (Some [mkChatMsg User s])).

(** A completion service that is down. *)
Definition failingService (detail : string) (_ : CompletionRequest)
  : Thrown + CompletionResponse :=
  inl (mkThrown CompletionServiceError (Some detail)).

(** A request body that is not JSON. *)
Definition unparsable : RequestJson :=
  inl (mkThrown MalformedRequest (Some "Unexpected end of JSON input")).

(** One chunk about vectors among four that are not. *)
Definition vectorChunk : Chunk :=
  mkChunk "A vector has magnitude and direction." "measurements/vectors" 0.

Definition scenarioChunks : list Chunk :=
  [mkChunk "Prefixes scale the base units." "measurements/prefixes" 0;
   mkChunk "Random errors scatter readings." "measurements/errors" 0;
   vectorChunk;
   mkChunk "Homogeneous equations balance in units." "measurements/homogeneity" 0;
   mkChunk "Estimate the order of magnitude first." "measurements/estimates" 0].

(** Three relevant chunks, the first and the last with the same score. *)
Definition tiedChunks : list Chunk :=
  [mkChunk "Every vector has a direction." "a" 0;
   mkChunk "A scalar is not a vector." "b" 0;
   mkChunk "Resolve the vector into components." "c" 0].

(** ** The chat widget, caller of the route *)

(** The chat state of [ChatWidget]: [messages], [input], [loading]. *)
Record WidgetState := mkWidget {
  w_messages : list ChatMsg;
  w_input : string;
  w_loading : bool
}.

Definition greeting : ChatMsg :=
  mkChatMsg Assistant
    "Hi! Ask me an H2 Physics question. I will only answer within the H2 syllabus and based on your site notes.".

Definition widgetInit : WidgetState := mkWidget [greeting] "" false.

(** A caught value: an error object, or [None] for [null] or [undefined],
    which have no [.message] to read. *)
Definition Reason : Type := option Thrown.

(** What [await res.json()] holds, seen through the cast to
    [{ reply: string }]: the JSON value [null], which has no [.reply] to
    read, or a value with its [reply]. *)
Inductive JsonData :=
| DataNull
| DataObject (reply : string).

(** What [send] reads of the [fetch] response: [res.ok] (from the status),
    [await res.text()] and [await res.json()], either of which may reject. *)
Record FetchResponse := mkFetchResponse {
  res_status : Z;
  res_text : Reason + string;
  res_json : Reason + JsonData
}.

Definition res_ok (res : FetchResponse) : bool :=
  ((200 <=? res_status res) && (res_status res <=? 299))%Z.

(** [text || "Request failed"] *)
Definition orRequestFailed (text : string) : string :=
  match text with
  | EmptyString => "Request failed"
  | _ => text
  end.

(** The template literal of the [catch] block; an undefined [err.message]
    prints as [undefined]. *)
Definition debugHint (err : Thrown) : string :=
  ("Sorry — something went wrong.

Debug hint: " ++ match message err with
                 | Some m => m
                 | None => "undefined"
                 end)%string.

(** The [try] block of [send] up to the [setMessages] call: the parsed body,
    or what the [catch] block receives. *)
Definition exchange (fetch : list ChatMsg -> Reason + FetchResponse)
    (sent : list ChatMsg) : Reason + JsonData :=
  match fetch sent with
  | inl reason => inl reason
  | inr res =>
      if negb (res_ok res) then
        match res_text res with
        | inl reason => inl reason
        | inr text => inl (Some (mkThrown OtherError (Some (orRequestFailed text))))
        end
      else res_json res
  end.

(** The two ways a [setMessages] updater of [send] can throw.  The updaters
    run when React renders, outside the [try]: [data.reply] of a [null] body
    and [err.message] of a [null] or [undefined] caught value are not
    caught. *)
Inductive RenderFault :=
| ReplyOfNull
| MessageOfNull.

Inductive SendResult :=
| Shown (st : WidgetState)
| RenderThrows (fault : RenderFault).

Section Widget.

(** [String.prototype.trim] is the platform's. *)
Variable trim : string -> string.

(** [input.trim().length > 0 && !loading] *)
Definition canSend (st : WidgetState) : bool :=
  (0 <? String.length (trim (w_input st))) && negb (w_loading st).

(** The message that [send] adds first. *)
Definition userTurn (st : WidgetState) : ChatMsg :=
  mkChatMsg User (trim (w_input st)).

(** The chat state while the request is in flight. *)
Definition sendStart (st : WidgetState) : WidgetState :=
  mkWidget (w_messages st ++ [userTurn st]) "" true.

(** [async function send()], run to its end with no other event in between:
    what it leaves, given what [fetch] does with the posted messages. *)
Definition send (st : WidgetState)
    (fetch : list ChatMsg -> Reason + FetchResponse) : SendResult :=
  if negb (canSend st) then Shown st
  else
    let started := sendStart st in
    let answered (content : string) :=
      Shown (mkWidget (w_messages started ++ [mkChatMsg Assistant content])
                      (w_input started) false) in
    match exchange fetch (w_messages st ++ [userTurn st]) with
    | inr (DataObject reply) => answered reply
    | inr DataNull => RenderThrows ReplyOfNull
    | inl (Some err) => answered (debugHint err)
    | inl None => RenderThrows MessageOfNull
    end.

(** What happens to the widget's chat state: the student types (the
    [onChange] of the input box), or a [send] runs to its end against some
    [fetch]. *)
Inductive WidgetEvent :=
| Typed (text : string)
| Sent (fetch : list ChatMsg -> Reason + FetchResponse).

Definition widgetStep (st : WidgetState) (ev : WidgetEvent) : SendResult :=
  match ev with
  | Typed text => Shown (mkWidget (w_messages st) text (w_loading st))
  | Sent fetch => send st fetch
  end.

(** The events in turn, up to the first render that throws. *)
Fixpoint widgetRun (st : WidgetState) (evs : list WidgetEvent) : SendResult :=
  match evs with
  | [] => Shown st
  | ev :: rest =>
      match widgetStep st ev with
      | Shown st' => widgetRun st' rest
      | RenderThrows fault => RenderThrows fault
      end
  end.

End Widget.

Definition isSent (ev : WidgetEvent) : bool :=
  match ev with
  | Sent _ => true
  | Typed _ => false
  end.

(** How many sends were tried. *)
Definition sendsTried (evs : list WidgetEvent) : nat :=
  List.length (filter isSent evs).

(** The roles of a conversation of [n] exchanges after the greeting. *)
Fixpoint exchangeRoles (n : nat) : list Role :=
  match n with
  | 0 => []
  | S k => User :: Assistant :: exchangeRoles k
  end.

Section Wire.

(** The JSON text of [{ reply }] and the parsing of a body are the
    platform's ([JSON.stringify], [JSON.parse]). *)
Variable jsonText : string -> string.
Variable parseData : string -> Reason + JsonData.

(** The route's response as [fetch] delivers it: the reply of a JSON body
    comes back as it was put in. *)
Definition overTheWire (r : Response) : FetchResponse :=
  match r with
  | JsonResponse s reply =>
      mkFetchResponse s (inr (jsonText reply)) (inr (DataObject reply))
  | TextResponse s body => mkFetchResponse s (inr body) (parseData body)
  end.

(** [fetch("/api/chat", { method: "POST", body: JSON.stringify({ messages }) })]
    against the route, over a network that delivers. *)
Definition fetchChat (env : Collaborators) (msgs : list ChatMsg)
  : Reason + FetchResponse :=
  match POST env (inr (JsonObject (Some msgs))) [] with
  | (inr r, _) => inr (overTheWire r)
  | (inl e, _) =>
      inr (mkFetchResponse 500 (inr (errorText e)) (parseData (errorText e)))
  end.

End Wire.

(** *** [trim] on UTF-8 text, for the examples *)

(** The white-space and line-terminator code points that [trim] strips, by
    their UTF-8 bytes: one byte (tab to carriage return, space), two bytes
    (U+00A0), three bytes (U+1680, U+2000 to U+200A, U+2028, U+2029, U+202F,
    U+205F, U+3000, U+FEFF). *)
Definition isSpace1 (a : nat) : bool :=
  (a =? 32) || ((9 <=? a) && (a <=? 13)).

Definition isSpace2 (a b : nat) : bool :=
  (a =? 194) && (b =? 160).

Definition isSpace3 (a b c : nat) : bool :=
  ((a =? 225) && (b =? 154) && (c =? 128))
  || ((a =? 226) && (b =? 128)
      && (((128 <=? c) && (c <=? 138)) || (c =? 168) || (c =? 169) || (c =? 175)))
  || ((a =? 226) && (b =? 129) && (c =? 159))
  || ((a =? 227) && (b =? 128) && (c =? 128))
  || ((a =? 239) && (b =? 187) && (c =? 191)).

(** Dropping the spaces at the head of a byte list; [backwards] when the
    list is a reversed text. *)
Fixpoint dropSpaces (backwards : bool) (l : list nat) : list nat :=
  match l with
  | [] => []
  | a :: r1 =>
      if isSpace1 a then dropSpaces backwards r1
      else
        match r1 with
        | [] => l
        | b :: r2 =>
            if (if backwards then isSpace2 b a else isSpace2 a b)
            then dropSpaces backwards r2
            else
              match r2 with
              | [] => l
              | c :: r3 =>
                  if (if backwards then isSpace3 c b a else isSpace3 a b c)
                  then dropSpaces backwards r3
                  else l
              end
        end
  end.

Definition bytesOf (s : string) : list nat :=
  map nat_of_ascii (list_ascii_of_string s).

Definition textOf (l : list nat) : string :=
  string_of_list_ascii (map ascii_of_nat l).

Definition utf8Trim (s : string) : string :=
  textOf (rev (dropSpaces true (rev (dropSpaces false (bytesOf s))))).

(** ** The generic quiz card [MCQ] *)

(** [correctAnswer: number | string]; a number is an index, an integer. *)
Inductive CorrectAnswer :=
| ByIndex (i : Z)
| ByText (s : string).

Inductive McqStatus := Idle | Correct | Wrong.

Record McqState := mkMcq {
  isOpen : bool;
  selectedIndex : option nat;
  status : McqStatus
}.

(** [options.findIndex((opt) => opt === answer)], [-1] when there is none. *)
Fixpoint findIndexFrom (answer : string) (options : list string) (i : Z) : Z :=
  match options with
  | [] => (-1)%Z
  | opt :: rest =>
      if String.eqb opt answer then i else findIndexFrom answer rest (i + 1)%Z
  end.

Definition findIndex (answer : string) (options : list string) : Z :=
  findIndexFrom answer options 0%Z.

Section Mcq.

Variable options : list string.
Variable correctAnswer : CorrectAnswer.
Variable defaultOpen : bool.

Definition correctIndex : Z :=
  match correctAnswer with
  | ByIndex i => i
  | ByText s => findIndex s options
  end.

(** [correctIndex >= 0 && correctIndex < options.length] *)
Definition canGrade : bool :=
  ((0 <=? correctIndex) && (correctIndex <? Z.of_nat (List.length options)))%Z.

Definition isLocked (st : McqState) : bool :=
  match status st with
  | Correct => true
  | _ => false
  end.

Definition mcqInit : McqState := mkMcq defaultOpen None Idle.

Definition onSubmit (st : McqState) : McqState :=
  if isLocked st then st
  else
    match selectedIndex st with
    | None => st
    | Some sel =>
        if negb canGrade then mkMcq (isOpen st) (selectedIndex st) Wrong
        else if (Z.of_nat sel =? correctIndex)%Z
             then mkMcq (isOpen st) (selectedIndex st) Correct
             else mkMcq (isOpen st) (selectedIndex st) Wrong
    end.

Definition onTryAgain (st : McqState) : McqState :=
  mkMcq (isOpen st) None Idle.

(** The [onChange] of the radio input of option [idx]. *)
Definition onSelect (idx : nat) (st : McqState) : McqState :=
  if isLocked st then st
  else
    mkMcq (isOpen st) (Some idx)
          (match status st with
           | Wrong => Idle
           | other => other
           end).

Definition onToggle (st : McqState) : McqState :=
  mkMcq (negb (isOpen st)) (selectedIndex st) (status st).

(** What the student can do. *)
Inductive McqEvent :=
| Toggle
| Select (idx : nat)
| Submit
| TryAgain.

(** Whether the control of an event is there to be used: one radio input per
    option, disabled with the fieldset once locked; the submit button,
    disabled while locked or nothing is selected; the try-again button, shown
    with the hint only. *)
Definition available (st : McqState) (ev : McqEvent) : bool :=
  match ev with
  | Toggle => true
  | Select idx => (idx <? List.length options) && negb (isLocked st)
  | Submit =>
      negb (isLocked st || match selectedIndex st with None => true | Some _ => false end)
  | TryAgain => match status st with Wrong => true | _ => false end
  end.

Definition mcqStep (st : McqState) (ev : McqEvent) : McqState :=
  if available st ev then
    match ev with
    | Toggle => onToggle st
    | Select idx => onSelect idx st
    | Submit => onSubmit st
    | TryAgain => onTryAgain st
    end
  else st.

Definition mcqRun (st : McqState) (evs : list McqEvent) : McqState :=
  fold_left mcqStep evs st.

(** What a verdict says about the selection. *)
Definition verdictSound (st : McqState) : Prop :=
  match status st with
  | Idle => True
  | Correct =>
      exists i, selectedIndex st = Some i
                /\ i < List.length options
                /\ Z.of_nat i = correctIndex
  | Wrong =>
      exists i, selectedIndex st = Some i
                /\ i < List.length options
                /\ (Z.of_nat i <> correctIndex
                    \/ canGrade = false)
  end
  /\ (forall i, selectedIndex st = Some i -> i < List.length options).

End Mcq.

Definition isToggle (ev : McqEvent) : bool :=
  match ev with
  | Toggle => true
  | _ => false
  end.

(** Two card states with the same quiz part: they may differ in the toggle. *)
Definition sameQuiz (a b : McqState) : Prop :=
  selectedIndex a = selectedIndex b /\ status a = status b.

(** ** The practice questions *)

(** The quiz state shared by [PracticeMCQ_PrefixConversion],
    [PracticeMCQ_BaseVsDerived], [PracticeMCQ_Homogeneity] and
    [PracticeMCQ_Uncertainty_Instrument]. *)
Record PracticeState := mkPractice {
  p_isOpen : bool;
  selectedOption : option string;
  hasSubmitted : bool;
  showAnswer : bool
}.

Inductive PracticeEvent :=
| PToggle
| PSelect (option : string)
| PSubmit
| PTryAgain
| PShowAnswer.

Definition practiceInit : PracticeState := mkPractice false None false false.

Section Practice.

Variable options : list string.
Variable correctAnswer : string.

(** [selectedOption === correctAnswer] *)
Definition isCorrect (st : PracticeState) : bool :=
  match selectedOption st with
  | Some o => String.eqb o correctAnswer
  | None => false
  end.

(** [showAnswer && option === correctAnswer] *)
Definition isOptionCorrectAndShouldHighlight (st : PracticeState)
    (option : string) : bool :=
  showAnswer st && String.eqb option correctAnswer.

(** The feedback box: nothing before a submission, then the verdict on the
    current selection. *)
Definition feedback (st : PracticeState) : option bool :=
  if hasSubmitted st then Some (isCorrect st) else None.

(** One radio input per option; the submit button, disabled while nothing is
    selected; the try-again and show-answer buttons, rendered with the
    feedback on a wrong selection only. *)
Definition practiceAvailable (st : PracticeState) (ev : PracticeEvent) : bool :=
  match ev with
  | PToggle => true
  | PSelect o => existsb (String.eqb o) options
  | PSubmit => match selectedOption st with Some _ => true | None => false end
  | PTryAgain | PShowAnswer => hasSubmitted st && negb (isCorrect st)
  end.

Definition practiceStep (st : PracticeState) (ev : PracticeEvent) : PracticeState :=
  if practiceAvailable st ev then
    match ev with
    | PToggle =>
        mkPractice (negb (p_isOpen st)) (selectedOption st)
                   (hasSubmitted st) (showAnswer st)
    | PSelect o =>
        mkPractice (p_isOpen st) (Some o) (hasSubmitted st) (showAnswer st)
    | PSubmit => mkPractice (p_isOpen st) (selectedOption st) true false
    | PTryAgain => mkPractice (p_isOpen st) None false false
    | PShowAnswer =>
        mkPractice (p_isOpen st) (selectedOption st) (hasSubmitted st) true
    end
  else st.

Definition practiceRun (st : PracticeState) (evs : list PracticeEvent)
  : PracticeState :=
  fold_left practiceStep evs st.

End Practice.

Definition isPToggle (ev : PracticeEvent) : bool :=
  match ev with
  | PToggle => true
  | _ => false
  end.

(** The quiz part of a practice state (all of it but the toggle). *)
Definition quizOf (st : PracticeState) : option string * bool * bool :=
  (selectedOption st, hasSubmitted st, showAnswer st).

(** The question of [PracticeMCQ_Uncertainty_Instrument]. *)
Definition uncertaintyOptions : list string :=
  ["± 0.001 m"; "± 0.0005 m"; "± 0.002 m"; "0.001 m"].

Definition uncertaintyAnswer : string := "± 0.001 m".

(** A chunker that gives up on an empty document. *)
Definition pickyChunker (text : string) (cfg : ChunkConfig) : Thrown + list Chunk :=
  if String.eqb text "" then inl (mkThrown OtherError (Some "nothing to chunk"))
  else chunkText text cfg.

Definition pickyEnv : Collaborators :=
  mkCollaborators
    (fun q => inr (classifyScope ["vector"] ["pizza"] demoRefusal q))
    (inr demoDocs)
    pickyChunker
    (fun q cs k => inr (retrieveTopChunksKeyword demoStopwords q cs k))
    (inr buildSystemPrompt)
    (fun q top => inr (buildUserPrompt q top))
    (demoService (Some "hi")).

(** The whole document as its one chunk. *)
Definition oneChunk (d : Document) : list Chunk :=
  [mkChunk (doc_text d) (path d) 0].

(** A [fetch] without a network. *)
Definition offlineFetch (_ : list ChatMsg) : Reason + FetchResponse :=
  inl (Some (mkThrown OtherError (Some "Failed to fetch"))).

(** A widget with a question typed in. *)
Definition askingWidget : WidgetState :=
  mkWidget [greeting] "  what is a vector " false.

Definition plainJson (reply : string) : string := reply.

Definition noJson (_ : string) : Reason + JsonData :=
  inl (Some (mkThrown OtherError (Some "Unexpected token"))).

(** A question sent to the route, then one sent without a network. *)
Definition demoEvents : list WidgetEvent :=
  [Typed "  what is a vector ";
   Sent (fetchChat plainJson noJson
           (demoEnv (inr demoDocs) (demoService (Some "hi"))));
   Typed "and a scalar?";
   Sent offlineFetch].

(** * Properties of the route handler *)

Section HandlerFacts.

Variable env : Collaborators.

Lemma bind_call {A B} (c : Call) (o : Thrown + A) (k : A -> M B) (log : list Call) :
  bind (call c o) k log =
  match o with
  | inl e => (inl e, log ++ [c])
  | inr a => k a (log ++ [c])
  end.
Proof. unfold bind, call. destruct o; reflexivity. Qed.

Lemma bind_ret {A B} (a : A) (k : A -> M B) (log : list Call) :
  bind (ret a) k log = k a log.
Proof. reflexivity. Qed.

(** The chunking stage makes exactly the calls of [chunkCalls] and ends as
    [chunkOutcome] says. *)
Lemma chunkAll_run (docs : list Document) (log : list Call) :
  chunkAll env docs log = (chunkOutcome env docs, log ++ chunkCalls env docs).
Proof.
  revert log. induction docs as [|d rest IH]; intro log.
  - cbn. now rewrite app_nil_r.
  - unfold chunkAll in *. cbn [flatMapM chunkOutcome chunkCalls].
    rewrite bind_call.
    destruct (chunkText_of env (doc_text d) (handlerChunkConfig d)) as [e|ys].
    + reflexivity.
    + unfold bind at 1. rewrite IH.
      rewrite <- app_assoc. cbn [app].
      destruct (chunkOutcome env rest); reflexivity.
Qed.

Lemma bind_chunkAll {B} (docs : list Document) (k : list Chunk -> M B)
    (log : list Call) :
  bind (chunkAll env docs) k log =
  match chunkOutcome env docs with
  | inl e => (inl e, log ++ chunkCalls env docs)
  | inr chunks => k chunks (log ++ chunkCalls env docs)
  end.
Proof. unfold bind. rewrite chunkAll_run. reflexivity. Qed.

Lemma chunkCalls_not_completion (docs : list Document) :
  filter isCompletionCall (chunkCalls env docs) = [].
Proof.
  induction docs as [|d rest IH]; cbn; [reflexivity|].
  destruct (chunkText_of env (doc_text d) (handlerChunkConfig d)); auto.
Qed.

Lemma bind_readMessages {B} (req : RequestJson) (k : list ChatMsg -> M B)
    (log : list Call) :
  bind (readMessages req) k log =
  match req with
  | inl e => (inl e, log ++ [CallReqJson])
  | inr JsonNull => (inl null_body_error, log ++ [CallReqJson])
  | inr (JsonIllTyped fault) => (inl (body_fault_error fault), log ++ [CallReqJson])
  | inr (JsonObject field) => k (messagesOrEmpty field) (log ++ [CallReqJson])
  end.
Proof. destruct req as [e|[|field|fault]]; reflexivity. Qed.

End HandlerFacts.

(** Stepping the handler through its stages. *)
Ltac step_handler :=
  repeat first
    [ rewrite bind_readMessages
    | rewrite bind_call
    | rewrite bind_chunkAll
    | rewrite bind_ret ].

Ltac use_outcomes :=
  repeat match goal with
  | H : ?x = inl _ |- context [?x] => rewrite H
  | H : ?x = inr _ |- context [?x] => rewrite H
  | H : allowed ?d = _ |- context [allowed ?d] => rewrite H
  end.

Ltac count_completions :=
  unfold completionCalls; cbn [filter isCompletionCall];
  repeat rewrite filter_app; rewrite ?chunkCalls_not_completion;
  cbn; lia.

Ltac run_handler :=
  unfold POST, try_catch, handle;
  repeat (step_handler; use_outcomes; cbn [negb ret app]).

Section HandlerClaims.

Variable env : Collaborators.

Lemma failure_run (req : RequestJson) (e : Thrown) :
  StageFailure env req e ->
  exists log,
    POST env req [] = (inr (TextResponse 500 (errorText e)), log)
    /\ completionCalls log <= 1.
Proof.
  intros F. destruct F; run_handler.
  all: eexists; split; [reflexivity|].
  all: count_completions.
Qed.

Lemma completed_run (field : option (list ChatMsg)) (d : ScopeDecision)
    (docs : list Document) (chunks top : list Chunk) (system user : string)
    (resp : CompletionResponse) :
  let q := lastUserContent (messagesOrEmpty field) in
  classifyScope_of env q = inr d ->
  allowed d = true ->
  loadAllMdxDocuments_of env = inr docs ->
  chunkOutcome env docs = inr chunks ->
  retrieveTopChunksKeyword_of env q chunks 6 = inr top ->
  buildSystemPrompt_of env = inr system ->
  buildUserPrompt_of env q top = inr user ->
  completionsCreate_of env (completionRequest system user) = inr resp ->
  POST env (inr (JsonObject field)) [] =
  (inr (JsonResponse 200 match firstContent resp with
                         | Some c => c
                         | None => "No response."
                         end),
   fullLog env q docs chunks top system user).
Proof.
  intros q Hs Ha Hl Hc Hr Hsys Hu Hresp. subst q.
  run_handler. unfold fullLog. cbn [app].
  repeat rewrite <- app_assoc. reflexivity.
Qed.

Lemma refused_run (field : option (list ChatMsg)) (d : ScopeDecision) :
  let q := lastUserContent (messagesOrEmpty field) in
  classifyScope_of env q = inr d ->
  allowed d = false ->
  POST env (inr (JsonObject field)) [] =
  (inr (JsonResponse 200 (refusal d)), [CallReqJson; CallClassifyScope q]).
Proof. intros q Hs Ha. subst q. run_handler. reflexivity. Qed.

(** Every request ends in exactly one of three ways. *)
Lemma request_outcomes (req : RequestJson) :
  (exists e, StageFailure env req e)
  \/ (exists field d,
        req = inr (JsonObject field)
        /\ classifyScope_of env (lastUserContent (messagesOrEmpty field)) = inr d
        /\ allowed d = false)
  \/ (exists field d docs chunks top system user resp,
        req = inr (JsonObject field)
        /\ classifyScope_of env (lastUserContent (messagesOrEmpty field)) = inr d
        /\ allowed d = true
        /\ loadAllMdxDocuments_of env = inr docs
        /\ chunkOutcome env docs = inr chunks
        /\ retrieveTopChunksKeyword_of env
             (lastUserContent (messagesOrEmpty field)) chunks 6 = inr top
        /\ buildSystemPrompt_of env = inr system
        /\ buildUserPrompt_of env
             (lastUserContent (messagesOrEmpty field)) top = inr user
        /\ completionsCreate_of env (completionRequest system user) = inr resp).
Proof.
  destruct req as [e|[|field|fault]].
  - left. eexists. constructor.
  - left. eexists. constructor.
  - destruct (classifyScope_of env (lastUserContent (messagesOrEmpty field)))
      as [e|d] eqn:Hs.
    { left. exists e. now apply ScopeFails. }
    destruct (allowed d) eqn:Ha.
    2:{ right. left. now exists field, d. }
    destruct (loadAllMdxDocuments_of env) as [e|docs] eqn:Hl.
    { left. exists e. eapply LoadFails; eauto. }
    destruct (chunkOutcome env docs) as [e|chunks] eqn:Hc.
    { left. exists e. eapply ChunkFails; eauto. }
    destruct (retrieveTopChunksKeyword_of env
                (lastUserContent (messagesOrEmpty field)) chunks 6)
      as [e|top] eqn:Hr.
    { left. exists e. eapply RetrieveFails; eauto. }
    destruct (buildSystemPrompt_of env) as [e|system] eqn:Hsys.
    { left. exists e. eapply SystemPromptFails; eauto. }
    destruct (buildUserPrompt_of env
                (lastUserContent (messagesOrEmpty field)) top)
      as [e|user] eqn:Hu.
    { left. exists e. eapply UserPromptFails; eauto. }
    destruct (completionsCreate_of env (completionRequest system user))
      as [e|resp] eqn:Hresp.
    { left. exists e. eapply CompletionFails; eauto. }
    right. right. exists field, d, docs, chunks, top, system, user, resp.
    repeat split; assumption.
  - left. eexists. constructor.
Qed.

Lemma fullLog_one_completion q docs chunks top system user :
  completionCalls (fullLog env q docs chunks top system user) = 1.
Proof.
  unfold fullLog, completionCalls. cbn [app filter isCompletionCall].
  rewrite filter_app, chunkCalls_not_completion. reflexivity.
Qed.

(** Whatever the request and the collaborators, the handler answers, with
    status 200 or 500, after at most one call of the completion service. *)
Lemma POST_answers (req : RequestJson) :
  exists resp log,
    POST env req [] = (inr resp, log)
    /\ (response_status resp = 200 \/ response_status resp = 500)%Z
    /\ completionCalls log <= 1.
Proof.
  destruct (request_outcomes req) as [[e F]|[R|C]].
  - destruct (failure_run req e F) as [log [H Hn]].
    exists (TextResponse 500 (errorText e)), log. cbn. auto.
  - destruct R as (field & d & -> & Hs & Ha).
    eexists _, _. split; [now apply refused_run with (d := d)|].
    cbn. split; [auto|lia].
  - destruct C as (field & d & docs & chunks & top & system & user & resp
                   & -> & Hs & Ha & Hl & Hc & Hr & Hsys & Hu & Hresp).
    eexists _, _. split; [eapply completed_run; eauto|].
    rewrite fullLog_one_completion. cbn. split; [auto|lia].
Qed.

Lemma find_app_none {A} (f : A -> bool) (l1 l2 : list A) :
  forallb (fun x => negb (f x)) l1 = true ->
  find f (l1 ++ l2) = find f l2.
Proof.
  induction l1 as [|x l1 IH]; cbn; [reflexivity|].
  intros H. apply andb_true_iff in H as [Hx Hl].
  destruct (f x); [discriminate|auto].
Qed.

(** [lastUserMessage] is the last message of role user. *)
Lemma lastUserMessage_last (pre post : list ChatMsg) (m : ChatMsg) :
  role m = User ->
  Forall (fun x => role x = Assistant) post ->
  lastUserMessage (pre ++ m :: post) = Some m.
Proof.
  intros Hm Hpost. unfold lastUserMessage.
  rewrite rev_app_distr. cbn [rev]. rewrite <- app_assoc. cbn [app].
  rewrite find_app_none.
  - cbn. unfold isUser. now rewrite Hm.
  - apply forallb_forall. intros x Hx. apply in_rev in Hx.
    rewrite Forall_forall in Hpost. unfold isUser. now rewrite (Hpost x Hx).
Qed.

Lemma lastUserMessage_none (msgs : list ChatMsg) :
  Forall (fun x => role x = Assistant) msgs ->
  lastUserMessage msgs = None.
Proof.
  intros H. unfold lastUserMessage.
  rewrite <- (app_nil_r (rev msgs)). rewrite find_app_none; [reflexivity|].
  apply forallb_forall. intros x Hx. apply in_rev in Hx.
  rewrite Forall_forall in H. unfold isUser. now rewrite (H x Hx).
Qed.

(** The request's messages reach the handler only through the content of the
    last user message. *)
Lemma POST_reads_lastUserContent (f1 f2 : option (list ChatMsg)) :
  lastUserContent (messagesOrEmpty f1) = lastUserContent (messagesOrEmpty f2) ->
  POST env (inr (JsonObject f1)) [] = POST env (inr (JsonObject f2)) [].
Proof.
  intros H. unfold POST, try_catch, handle.
  rewrite !bind_readMessages. rewrite H. reflexivity.
Qed.

Lemma firstContent_missing (resp : CompletionResponse) :
  choices resp = []
  \/ (exists c rest, choices resp = c :: rest
        /\ (choice_message c = None
            \/ exists m, choice_message c = Some m /\ msg_content m = None)) ->
  firstContent resp = None.
Proof.
  unfold firstContent.
  intros [->|(c & rest & -> & [->|(m & -> & Hm)])]; auto.
Qed.

(** C1.  When the classifier returns [allowed = false] for the latest user
    message, the handler answers with the JSON body [{ reply: refusal }] and
    status 200, and the only calls made are [req.json()] and [classifyScope]:
    the loader, the chunker, the retriever, the prompt builders and the
    completion service are not invoked. *)
Theorem scope_refusal_short_circuits
    (field : option (list ChatMsg)) (d : ScopeDecision) :
  classifyScope_of env (lastUserContent (messagesOrEmpty field)) = inr d ->
  allowed d = false ->
  exists log,
    POST env (inr (JsonObject field)) [] = (inr (JsonResponse 200 (refusal d)), log)
    /\ log = [CallReqJson;
              CallClassifyScope (lastUserContent (messagesOrEmpty field))]
    /\ forallb (fun c => negb (isDownstream c)) log = true.
Proof.
  intros Hs Ha. eexists. split; [now apply refused_run|].
  split; reflexivity.
Qed.

(** C7 (as the handler is written).  Whichever stage throws, and whatever the
    kind of the thrown value, the handler answers with a plain-text body and
    status 500 whose text is the thrown value's message, or "Server error"
    when it has none.  No request is answered with a 4xx status, and the
    completion service is called at most once per request. *)
Theorem stage_failure_is_plain_500 (req : RequestJson) :
  (forall e, StageFailure env req e ->
     exists log,
       POST env req [] = (inr (TextResponse 500 (errorText e)), log))
  /\ (exists resp log,
        POST env req [] = (inr resp, log)
        /\ is4xx resp = false
        /\ completionCalls log <= 1).
Proof.
  split.
  - intros e F. destruct (failure_run req e F) as [log [H _]]. eauto.
  - destruct (POST_answers req) as (resp & log & H & Hst & Hn).
    exists resp, log. repeat split; auto.
    unfold is4xx. destruct Hst as [-> | ->]; reflexivity.
Qed.

(** C8.  Two message lists whose last message of role user has the same
    content are indistinguishable to the handler: the query given to the
    classifier and to the retriever, the scope decision, and the whole run
    (every call with its arguments, the user prompt among them, and the
    response) are the same. *)
Theorem only_last_user_turn_is_read
    (pre1 post1 pre2 post2 : list ChatMsg) (m1 m2 : ChatMsg) :
  role m1 = User -> Forall (fun x => role x = Assistant) post1 ->
  role m2 = User -> Forall (fun x => role x = Assistant) post2 ->
  content m1 = content m2 ->
  lastUserContent (pre1 ++ m1 :: post1) = content m1
  /\ lastUserContent (pre2 ++ m2 :: post2) = content m1
  /\ classifyScope_of env (lastUserContent (pre1 ++ m1 :: post1)) =
     classifyScope_of env (lastUserContent (pre2 ++ m2 :: post2))
  /\ POST env (inr (JsonObject (Some (pre1 ++ m1 :: post1)))) [] =
     POST env (inr (JsonObject (Some (pre2 ++ m2 :: post2)))) [].
Proof.
  intros H1 P1 H2 P2 Hc.
  assert (E1 : lastUserContent (pre1 ++ m1 :: post1) = content m1).
  { unfold lastUserContent. now rewrite lastUserMessage_last. }
  assert (E2 : lastUserContent (pre2 ++ m2 :: post2) = content m1).
  { unfold lastUserContent. now rewrite lastUserMessage_last. }
  repeat split; auto.
  - now rewrite E1, E2.
  - apply POST_reads_lastUserContent. cbn [messagesOrEmpty]. now rewrite E1, E2.
Qed.

(** C10.  When every stage succeeds and the completion has no content in its
    first choice (no choice at all, no message, or a null content), the
    handler answers with the JSON body [{ reply: "No response." }] and status
    200. *)
Theorem missing_content_gets_placeholder
    (field : option (list ChatMsg)) (d : ScopeDecision)
    (docs : list Document) (chunks top : list Chunk) (system user : string)
    (resp : CompletionResponse) :
  let q := lastUserContent (messagesOrEmpty field) in
  classifyScope_of env q = inr d ->
  allowed d = true ->
  loadAllMdxDocuments_of env = inr docs ->
  chunkOutcome env docs = inr chunks ->
  retrieveTopChunksKeyword_of env q chunks 6 = inr top ->
  buildSystemPrompt_of env = inr system ->
  buildUserPrompt_of env q top = inr user ->
  completionsCreate_of env (completionRequest system user) = inr resp ->
  choices resp = []
  \/ (exists c rest, choices resp = c :: rest
        /\ (choice_message c = None
            \/ exists m, choice_message c = Some m /\ msg_content m = None)) ->
  POST env (inr (JsonObject field)) [] =
  (inr (JsonResponse 200 "No response."),
   fullLog env q docs chunks top system user).
Proof.
  intros q Hs Ha Hl Hc Hr Hsys Hu Hresp Hshape.
  rewrite (completed_run field d docs chunks top system user resp); auto.
  now rewrite (firstContent_missing resp Hshape).
Qed.

End HandlerClaims.

(** * Properties of the chunker *)

Section SubstringFacts.

Lemma substring_empty (n m : nat) : substring n m "" = "".
Proof. destruct n, m; reflexivity. Qed.

Lemma substring_zero_length (n : nat) (s : string) : substring n 0 s = "".
Proof.
  revert n. induction s as [|x s IH]; intros [|n]; cbn; auto.
Qed.

Lemma substring_beyond (n m : nat) (s : string) :
  String.length s <= n -> substring n m s = "".
Proof.
  revert n. induction s as [|x s IH]; intros n H.
  - apply substring_empty.
  - destruct n as [|n]; cbn in *; [lia|]. apply IH. lia.
Qed.

Lemma substring_whole (s : string) : substring 0 (String.length s) s = s.
Proof. induction s as [|x s IH]; cbn; [reflexivity|]. now rewrite IH. Qed.

Lemma substring_length (n m : nat) (s : string) :
  String.length (substring n m s) = Nat.min m (String.length s - n).
Proof.
  revert n m. induction s as [|x s IH]; intros n m.
  - rewrite substring_empty. cbn. lia.
  - destruct n as [|n].
    + destruct m as [|m]; cbn; [reflexivity|]. rewrite IH. lia.
    + cbn. apply IH.
Qed.

(** Asking for more than is left gives what is left. *)
Lemma substring_clamp (n m : nat) (s : string) :
  String.length s <= n + m ->
  substring n m s = substring n (String.length s - n) s.
Proof.
  revert n m. induction s as [|x s IH]; intros n m H.
  - now rewrite !substring_empty.
  - destruct n as [|n].
    + destruct m as [|m]; cbn in *; [lia|].
      f_equal. rewrite (IH 0 m) by lia. now rewrite Nat.sub_0_r.
    + cbn in *. apply IH. lia.
Qed.

Lemma substring_split (n m1 m2 : nat) (s : string) :
  substring n (m1 + m2) s = (substring n m1 s ++ substring (n + m1) m2 s)%string.
Proof.
  revert n m1. induction s as [|x s IH]; intros n m1.
  - now rewrite !substring_empty.
  - destruct n as [|n].
    + destruct m1 as [|m1]; cbn [plus].
      * rewrite substring_zero_length. reflexivity.
      * cbn. f_equal. apply (IH 0 m1).
    + cbn. apply IH.
Qed.

Lemma substring_substring (a n c m : nat) (s : string) :
  substring c m (substring a n s) = substring (a + c) (Nat.min m (n - c)) s.
Proof.
  revert a n c m. induction s as [|x s IH]; intros a n c m.
  - now rewrite !substring_empty.
  - destruct a as [|a]; [|cbn; apply IH].
    destruct n as [|n].
    + change (substring 0 0 (String x s)) with "".
      rewrite substring_empty.
      replace (Nat.min m (0 - c)) with 0 by lia.
      now rewrite substring_zero_length.
    + cbn [substring plus]. destruct c as [|c].
      * destruct m as [|m]; [reflexivity|].
        cbn. f_equal. rewrite (IH 0 n 0 m). cbn. now rewrite Nat.sub_0_r.
      * cbn. apply (IH 0 n c m).
Qed.

Lemma append_empty_r (s : string) : (s ++ "")%string = s.
Proof. induction s as [|x s IH]; cbn; [reflexivity|]. now rewrite IH. Qed.

Lemma concat_empty_sep (x : string) (xs : list string) :
  String.concat "" (x :: xs) = (x ++ String.concat "" xs)%string.
Proof.
  destruct xs as [|y ys]; cbn; [now rewrite append_empty_r | reflexivity].
Qed.

Lemma slice_join (s : string) (a b c : nat) :
  a <= b -> b <= c ->
  (slice s a b ++ slice s b c)%string = slice s a c.
Proof.
  intros Hab Hbc. unfold slice.
  replace (c - a) with ((b - a) + (c - b)) by lia.
  rewrite substring_split. repeat f_equal. lia.
Qed.

Lemma slice_whole (s : string) : slice s 0 (String.length s) = s.
Proof. unfold slice. rewrite Nat.sub_0_r. apply substring_whole. Qed.

Lemma slice_clamp (s : string) (a b : nat) :
  String.length s <= b -> slice s a b = slice s a (String.length s).
Proof.
  intros H. unfold slice.
  destruct (le_lt_dec (String.length s) a) as [Ha|Ha].
  - now rewrite !substring_beyond.
  - apply substring_clamp. lia.
Qed.

Lemma slice_length (s : string) (a b : nat) :
  b <= String.length s -> String.length (slice s a b) = b - a.
Proof. intros H. unfold slice. rewrite substring_length. lia. Qed.

(** The tail past [c] of the slice [a .. b) is the slice [a + c .. b). *)
Lemma slice_tail (s : string) (a b c : nat) :
  b <= String.length s ->
  slice (slice s a b) c (String.length (slice s a b)) = slice s (a + c) b.
Proof.
  intros H. rewrite slice_length by assumption. unfold slice.
  rewrite substring_substring. f_equal. lia.
Qed.

End SubstringFacts.

(** The three cases of the window loop. *)
Lemma chunkWindows_done text label size step Hstep start index :
  String.length text <= start ->
  chunkWindows text label size step Hstep start index = [].
Proof.
  funelim (chunkWindows text label size step Hstep start index);
    intros; solve [reflexivity | lia].
Qed.

Lemma chunkWindows_window text label size step Hstep start index :
  start < String.length text ->
  start + size <= String.length text ->
  chunkWindows text label size step Hstep start index =
  mkChunk (slice text start (start + size)) label index
  :: chunkWindows text label size step Hstep (start + step) (S index).
Proof.
  funelim (chunkWindows text label size step Hstep start index);
    intros; solve [reflexivity | lia].
Qed.

Lemma chunkWindows_tail text label size step Hstep start index :
  start < String.length text ->
  String.length text < start + size ->
  chunkWindows text label size step Hstep start index =
  [mkChunk (slice text start (String.length text)) label index].
Proof.
  funelim (chunkWindows text label size step Hstep start index);
    intros; solve [reflexivity | lia].
Qed.

(** Chunk [i] of the loop started at [start] is the window at offset
    [start + i * step], cut at the end of the text, and carries the label and
    its ordinal. *)
Lemma chunkWindows_nth text label size step Hstep start index :
  forall i c,
    nth_error (chunkWindows text label size step Hstep start index) i = Some c ->
    chunk_text c = slice text (start + i * step) (start + i * step + size)
    /\ chunk_source c = label
    /\ chunk_index c = index + i
    /\ start + i * step < String.length text.
Proof.
  funelim (chunkWindows text label size step Hstep start index); intros i c Hn.
  - destruct i; discriminate.
  - destruct i as [|i]; cbn in Hn.
    + injection Hn as <-. cbn. rewrite !Nat.add_0_r. auto.
    + apply H in Hn as (Ht & Hl & Hi & Hb).
      replace (start + S i * step) with (start + step + i * step) by lia.
      repeat split; auto; lia.
  - destruct i as [|i]; cbn in Hn; [|destruct i; discriminate].
    injection Hn as <-. cbn. rewrite !Nat.add_0_r.
    repeat split; auto. symmetry. apply slice_clamp. lia.
Qed.

(** Every chunk that has a successor is a full window. *)
Lemma chunkWindows_full text label size step Hstep start index :
  forall i,
    S i < List.length (chunkWindows text label size step Hstep start index) ->
    start + i * step + size <= String.length text.
Proof.
  funelim (chunkWindows text label size step Hstep start index); intros i Hi.
  - cbn in Hi. lia.
  - destruct i as [|i]; cbn in Hi.
    + lia.
    + assert (Hi' : S i <
        List.length (chunkWindows text label size step Hstep (start + step) (S index)))
        by lia.
      apply H in Hi'. lia.
  - cbn in Hi. lia.
Qed.

(** The loop produces at least one chunk when text remains, and its last
    window reaches the end of the text. *)
Lemma chunkWindows_final text label size step Hstep start index :
  step <= size ->
  start < String.length text ->
  exists n,
    List.length (chunkWindows text label size step Hstep start index) = S n
    /\ String.length text <= start + n * step + size.
Proof.
  funelim (chunkWindows text label size step Hstep start index);
    intros Hle Hlt.
  - lia.
  - destruct (le_lt_dec (String.length text) (start + step)) as [Hend|Hmore].
    + exists 0. rewrite chunkWindows_done by assumption. cbn. split; lia.
    + destruct (H Hle Hmore) as (n & Hlen & Hreach).
      exists (S n). cbn [List.length]. rewrite Hlen. split; lia.
  - exists 0. cbn. split; lia.
Qed.

(** The fresh parts of the chunks from [start] on spell the text from
    [start + overlap] on, provided the first of them has its [overlap]
    characters. *)
Lemma chunkWindows_fresh text label size step Hstep start index :
  step <= size ->
  String.length text <= start \/ start + (size - step) <= String.length text ->
  String.concat ""
    (map (freshPart (size - step))
         (chunkWindows text label size step Hstep start index)) =
  slice text (start + (size - step)) (String.length text).
Proof.
  funelim (chunkWindows text label size step Hstep start index);
    intros Hle Hpre.
  - cbn. unfold slice. rewrite substring_beyond by lia. reflexivity.
  - cbn [map]. rewrite concat_empty_sep. rewrite H by (auto; right; lia).
    unfold freshPart. cbn [chunk_text].
    rewrite slice_tail by lia.
    replace (start + step + (size - step)) with (start + size) by lia.
    apply slice_join; lia.
  - cbn [map]. rewrite concat_empty_sep. cbn [map String.concat].
    rewrite append_empty_r. unfold freshPart. cbn [chunk_text].
    now rewrite slice_tail by lia.
Qed.

Lemma chunkText_valid (text : string) (cfg : ChunkConfig) :
  (chunkOverlap cfg < chunkSize cfg)%Z ->
  exists Hstep,
    chunkText text cfg =
    inr (chunkWindows text (sourceLabel cfg)
           (Z.to_nat (chunkSize cfg))
           (Z.to_nat (chunkSize cfg - chunkOverlap cfg)) Hstep 0 0).
Proof.
  intros H. unfold chunkText.
  destruct (Z_lt_dec (chunkOverlap cfg) (chunkSize cfg)) as [Hlt|Hge]; [|lia].
  eexists. reflexivity.
Qed.

Lemma length_zero_empty (s : string) : String.length s = 0 -> s = "".
Proof. destruct s; [reflexivity|discriminate]. Qed.

(** C2.  For a configuration with [0 <= chunkOverlap < chunkSize], [chunkText]
    returns chunks (it does not throw) such that chunk [i] is the window of
    width [chunkSize] at offset [i * (chunkSize - chunkOverlap)], cut at the
    end of the text, labelled with the source and numbered [i]; every chunk
    but the last is a full window and the last one reaches the end of the
    text; the empty text gives no chunk.  On "AAAAABBBBBCCCCC" with size 10
    and overlap 2 the chunks are "AAAAABBBBB" (index 0) and "BBCCCCC"
    (index 1, the characters from offset 8 on). *)
Theorem chunkText_slides_window (text : string) (cfg : ChunkConfig) :
  (0 <= chunkOverlap cfg < chunkSize cfg)%Z ->
  let size := Z.to_nat (chunkSize cfg) in
  let step := Z.to_nat (chunkSize cfg - chunkOverlap cfg) in
  exists chunks,
    chunkText text cfg = inr chunks
    /\ (forall i c,
          nth_error chunks i = Some c ->
          chunk_text c = slice text (i * step) (i * step + size)
          /\ chunk_source c = sourceLabel cfg
          /\ chunk_index c = i
          /\ i * step < String.length text)
    /\ (forall i, S i < List.length chunks ->
          i * step + size <= String.length text)
    /\ (text <> "" ->
          exists n, List.length chunks = S n
                    /\ String.length text <= n * step + size)
    /\ (text = "" -> chunks = [])
    /\ chunkText "AAAAABBBBBCCCCC" (mkChunkConfig 10 2 (sourceLabel cfg)) =
       inr [mkChunk "AAAAABBBBB" (sourceLabel cfg) 0;
            mkChunk "BBCCCCC" (sourceLabel cfg) 1]
    /\ slice "AAAAABBBBBCCCCC" 8 (8 + 10) = "BBCCCCC".
Proof.
  intros Hcfg size step.
  destruct (chunkText_valid text cfg) as [Hstep Heq]; [lia|].
  fold size step in Heq, Hstep.
  eexists. split; [exact Heq|].
  split; [|split; [|split; [|split; [|split]]]].
  - intros i c Hn. apply chunkWindows_nth in Hn. cbn in Hn. exact Hn.
  - intros i Hi. apply chunkWindows_full in Hi. cbn in Hi. exact Hi.
  - intros Hne.
    destruct (chunkWindows_final text (sourceLabel cfg) size step Hstep 0 0)
      as (n & Hlen & Hreach).
    + subst size step. lia.
    + destruct text; [congruence|cbn; lia].
    + exists n. cbn in Hreach. auto.
  - intros ->. apply chunkWindows_done. cbn. lia.
  - vm_compute. reflexivity.
  - reflexivity.
Qed.

(** C3.  For a configuration with [0 <= chunkOverlap < chunkSize], the first
    chunk followed by every later chunk without its first [chunkOverlap]
    characters is the text: chunking drops nothing. *)
Theorem chunks_reassemble_text (text : string) (cfg : ChunkConfig) :
  (0 <= chunkOverlap cfg < chunkSize cfg)%Z ->
  exists chunks,
    chunkText text cfg = inr chunks
    /\ reassemble (Z.to_nat (chunkOverlap cfg)) chunks = text.
Proof.
  intros Hcfg.
  destruct (chunkText_valid text cfg) as [Hstep Heq]; [lia|].
  eexists. split; [exact Heq|].
  set (size := Z.to_nat (chunkSize cfg)) in *.
  set (step := Z.to_nat (chunkSize cfg - chunkOverlap cfg)) in *.
  assert (Hov : Z.to_nat (chunkOverlap cfg) = size - step) by (subst size step; lia).
  assert (Hle : step <= size) by (subst size step; lia).
  rewrite Hov.
  destruct (le_lt_dec (String.length text) 0) as [Hempty|Hsome].
  - rewrite chunkWindows_done by assumption. cbn.
    symmetry. apply length_zero_empty. lia.
  - destruct (le_lt_dec (0 + size) (String.length text)) as [Hfull|Hshort].
    + rewrite chunkWindows_window by assumption.
      cbn [reassemble chunk_text].
      rewrite chunkWindows_fresh by (auto; right; lia).
      replace (0 + step + (size - step)) with (0 + size) by lia.
      rewrite slice_join by lia. apply slice_whole.
    + rewrite chunkWindows_tail by assumption.
      cbn [reassemble chunk_text map String.concat].
      rewrite append_empty_r. apply slice_whole.
Qed.




(** * Properties of the keyword retriever *)

Section SortFacts.

Lemma insertByScore_length (x : ScoredChunk) (l : list ScoredChunk) :
  List.length (insertByScore x l) = S (List.length l).
Proof.
  induction l as [|y l IH]; cbn; [reflexivity|].
  destruct (score y <=? score x); cbn; auto.
Qed.

Lemma sortByScore_cons (x : ScoredChunk) (l : list ScoredChunk) :
  sortByScore (x :: l) = insertByScore x (sortByScore l).
Proof. reflexivity. Qed.

Lemma sortByScore_length (l : list ScoredChunk) :
  List.length (sortByScore l) = List.length l.
Proof.
  induction l as [|x l IH]; [reflexivity|].
  rewrite sortByScore_cons, insertByScore_length, IH. reflexivity.
Qed.

Lemma insertByScore_Forall (P : ScoredChunk -> Prop) x l :
  P x -> Forall P l -> Forall P (insertByScore x l).
Proof.
  intros Hx Hl. induction Hl as [|y l Hy Hl IH]; cbn.
  - auto.
  - destruct (score y <=? score x); auto.
Qed.

Lemma sortByScore_Forall (P : ScoredChunk -> Prop) l :
  Forall P l -> Forall P (sortByScore l).
Proof.
  induction 1 as [|x l Hx Hl IH]; [constructor|].
  rewrite sortByScore_cons. now apply insertByScore_Forall.
Qed.

Lemma insertByScore_sorted x l :
  StronglySorted outranks l -> StronglySorted outranks (insertByScore x l).
Proof.
  induction 1 as [|y l Hs IH Hy]; cbn.
  - repeat constructor.
  - destruct (score y <=? score x) eqn:E.
    + apply Nat.leb_le in E. constructor; [now constructor|].
      constructor; [exact E|].
      eapply Forall_impl; [|exact Hy]. unfold outranks. intros z Hz. lia.
    + apply Nat.leb_gt in E. constructor; [exact IH|].
      apply insertByScore_Forall; [unfold outranks; lia|exact Hy].
Qed.

Lemma sortByScore_sorted l : StronglySorted outranks (sortByScore l).
Proof.
  induction l as [|x l IH]; [constructor|].
  rewrite sortByScore_cons. now apply insertByScore_sorted.
Qed.

(** Inserting does not disturb the order within a score class. *)
Lemma insertByScore_class (v : nat) x l :
  filter (fun s => score s =? v) (insertByScore x l) =
  filter (fun s => score s =? v) (x :: l).
Proof.
  induction l as [|y l IH]; [reflexivity|].
  cbn [insertByScore]. destruct (score y <=? score x) eqn:E; [reflexivity|].
  apply Nat.leb_gt in E.
  cbn [filter] in *. rewrite IH.
  destruct (score x =? v) eqn:Ex, (score y =? v) eqn:Ey; try reflexivity.
  apply Nat.eqb_eq in Ex, Ey. lia.
Qed.

(** The sort is stable: each score class keeps its input order. *)
Lemma sortByScore_class (v : nat) l :
  filter (fun s => score s =? v) (sortByScore l) =
  filter (fun s => score s =? v) l.
Proof.
  induction l as [|x l IH]; [reflexivity|].
  rewrite sortByScore_cons, insertByScore_class.
  cbn [filter]. now rewrite IH.
Qed.

Lemma StronglySorted_firstn {A} (R : A -> A -> Prop) (n : nat) (l : list A) :
  StronglySorted R l -> StronglySorted R (firstn n l).
Proof.
  intros H. revert n. induction H as [|x l Hs IH Hx]; intros [|n]; cbn;
    try constructor; auto.
  rewrite <- (firstn_skipn n l) in Hx. now apply Forall_app in Hx.
Qed.

Lemma Forall_firstn_of {A} (P : A -> Prop) (n : nat) (l : list A) :
  Forall P l -> Forall P (firstn n l).
Proof.
  intros H. rewrite <- (firstn_skipn n l) in H. now apply Forall_app in H.
Qed.

Lemma Forall_filter_of {A} (P : A -> Prop) (f : A -> bool) (l : list A) :
  Forall P l -> Forall P (filter f l).
Proof.
  rewrite !Forall_forall. intros H x Hx. apply filter_In in Hx. now apply H.
Qed.

End SortFacts.

Section RetrieverFacts.

Variable stopwords : list string.
Variable query : string.

Lemma scoreAll_wellScored (chunks : list Chunk) :
  Forall (wellScored stopwords query) (scoreAll stopwords query chunks).
Proof.
  unfold scoreAll. apply Forall_forall. intros s Hs.
  apply in_map_iff in Hs as (c & <- & _). reflexivity.
Qed.

Lemma rankChunks_wellScored (chunks : list Chunk) :
  Forall (wellScored stopwords query) (rankChunks stopwords query chunks).
Proof.
  unfold rankChunks. apply sortByScore_Forall, Forall_filter_of,
    scoreAll_wellScored.
Qed.

Lemma map_chunk_filter (f : nat -> bool) (l : list ScoredChunk) :
  Forall (wellScored stopwords query) l ->
  filter (fun c => f (scoreChunk stopwords query c)) (map chunk l) =
  map chunk (filter (fun s => f (score s)) l).
Proof.
  induction 1 as [|s l Hs Hl IH]; [reflexivity|].
  cbn [map filter]. rewrite IH, <- Hs.
  destruct (f (score s)); reflexivity.
Qed.

Lemma map_chunk_scoreAll (chunks : list Chunk) :
  map chunk (scoreAll stopwords query chunks) = chunks.
Proof.
  unfold scoreAll. rewrite map_map. cbn. apply map_id.
Qed.

Lemma rankChunks_length (chunks : list Chunk) :
  List.length (rankChunks stopwords query chunks) =
  List.length (relevantChunks stopwords query chunks).
Proof.
  unfold rankChunks, relevantChunks. rewrite sortByScore_length.
  rewrite <- (map_chunk_scoreAll chunks) at 2.
  rewrite (map_chunk_filter (fun n => 0 <? n)) by apply scoreAll_wellScored.
  now rewrite length_map.
Qed.

Lemma rankChunks_relevant (chunks : list Chunk) :
  Forall (fun s => 0 < score s /\ In (chunk s) chunks)
         (rankChunks stopwords query chunks).
Proof.
  unfold rankChunks. apply sortByScore_Forall. apply Forall_forall.
  intros s Hs. apply filter_In in Hs as [Hin Hpos].
  apply Nat.ltb_lt in Hpos. split; [exact Hpos|].
  unfold scoreAll in Hin. apply in_map_iff in Hin as (c & <- & Hc). exact Hc.
Qed.

(** Each score class of the ranking is that class of the input, in input
    order. *)
Lemma rankChunks_class (v : nat) (chunks : list Chunk) :
  0 < v ->
  map chunk (filter (fun s => score s =? v) (rankChunks stopwords query chunks)) =
  filter (fun c => scoreChunk stopwords query c =? v) chunks.
Proof.
  intros Hv. unfold rankChunks. rewrite sortByScore_class.
  rewrite <- (map_chunk_scoreAll chunks) at 2.
  rewrite (map_chunk_filter (fun n => n =? v)) by apply scoreAll_wellScored.
  f_equal.
  induction (scoreAll stopwords query chunks) as [|s l IH]; [reflexivity|].
  cbn [filter]. destruct (0 <? score s) eqn:E0; cbn [filter]; rewrite IH.
  - reflexivity.
  - apply Nat.ltb_ge in E0. destruct (score s =? v) eqn:Ev; [|reflexivity].
    apply Nat.eqb_eq in Ev. lia.
Qed.

Lemma filter_nothing {A} (f : A -> bool) (l : list A) :
  Forall (fun x => f x = false) l -> filter f l = [].
Proof.
  induction 1 as [|x l Hx Hl IH]; cbn; [reflexivity|]. now rewrite Hx.
Qed.

Lemma outranks_map_chunk (l : list ScoredChunk) :
  Forall (wellScored stopwords query) l ->
  StronglySorted outranks l ->
  StronglySorted (fun a b => scoreChunk stopwords query b <= scoreChunk stopwords query a) (map chunk l).
Proof.
  intros Hw Hs. induction Hs as [|s l Hs IH Hx]; cbn; constructor.
  - apply IH. now inversion Hw.
  - inversion Hw as [|? ? Hws Hwl]; subst.
    apply Forall_forall. intros c Hc. apply in_map_iff in Hc as (t & <- & Ht).
    rewrite Forall_forall in Hx, Hwl.
    rewrite <- Hws, <- (Hwl t Ht). apply Hx, Ht.
Qed.

(** C4.  The retriever returns at most [k] chunks; it returns fewer than [k]
    only when fewer than [k] chunks have a nonzero score (the length is the
    smaller of [k] and the number of such chunks); every returned chunk is an
    input chunk with a nonzero score; and for [k <= 0], or for no chunks, the
    result is the empty list. *)
Theorem retrieval_respects_k (chunks : list Chunk) (k : Z) :
  let out := retrieveTopChunksKeyword stopwords query chunks k in
  (Z.of_nat (List.length out) <= Z.max 0 k)%Z
  /\ List.length out = Nat.min (Z.to_nat k) (List.length (relevantChunks stopwords query chunks))
  /\ ((Z.of_nat (List.length out) < k)%Z ->
      (Z.of_nat (List.length (relevantChunks stopwords query chunks)) < k)%Z)
  /\ (forall c, In c out -> 0 < scoreChunk stopwords query c /\ In c chunks)
  /\ ((k <= 0)%Z -> out = [])
  /\ retrieveTopChunksKeyword stopwords query [] k = [].
Proof.
  intros out.
  assert (Hlen : List.length out =
                 Nat.min (Z.to_nat k) (List.length (relevantChunks stopwords query chunks))).
  { subst out. unfold retrieveTopChunksKeyword.
    destruct (k <=? 0)%Z eqn:Ek.
    - apply Z.leb_le in Ek. cbn. lia.
    - rewrite length_map, length_firstn, rankChunks_length. reflexivity. }
  split; [lia|]. split; [exact Hlen|]. split; [lia|].
  split; [|split].
  - intros c Hc. subst out. unfold retrieveTopChunksKeyword in Hc.
    destruct (k <=? 0)%Z; [contradiction|].
    apply in_map_iff in Hc as (s & <- & Hs).
    pose proof (rankChunks_wellScored chunks) as Hw.
    pose proof (rankChunks_relevant chunks) as Hr.
    rewrite Forall_forall in Hw, Hr.
    assert (Hin : In s (rankChunks stopwords query chunks)).
    { rewrite <- (firstn_skipn (Z.to_nat k)). apply in_or_app. now left. }
    destruct (Hr s Hin) as [Hpos Hc]. rewrite <- (Hw s Hin). auto.
  - intros Hk. subst out. unfold retrieveTopChunksKeyword.
    apply Z.leb_le in Hk. now rewrite Hk.
  - unfold retrieveTopChunksKeyword. destruct (k <=? 0)%Z; [reflexivity|].
    cbn. now rewrite firstn_nil.
Qed.

(** C6.  The retriever is a function of (query, chunks, k): equal arguments
    give the same ordered output.  The output is ranked highest score first,
    and for every score the output chunks with that score are an initial
    segment, in input order, of the input chunks with that score: ties keep
    their input order. *)
Theorem retrieval_is_stable (chunks : list Chunk) (k : Z) :
  let out := retrieveTopChunksKeyword stopwords query chunks k in
  (forall chunks' k',
      chunks' = chunks -> k' = k ->
      retrieveTopChunksKeyword stopwords query chunks' k' = out)
  /\ StronglySorted (fun a b => scoreChunk stopwords query b <= scoreChunk stopwords query a) out
  /\ (forall v, exists later,
        filter (fun c => scoreChunk stopwords query c =? v) chunks =
        filter (fun c => scoreChunk stopwords query c =? v) out ++ later).
Proof.
  intros out. split; [intros ? ? -> ->; reflexivity|].
  subst out. unfold retrieveTopChunksKeyword.
  destruct (k <=? 0)%Z.
  { split; [constructor|]. intros v. eexists. reflexivity. }
  pose proof (rankChunks_wellScored chunks) as Hw.
  split.
  - apply outranks_map_chunk.
    + now apply Forall_firstn_of.
    + apply StronglySorted_firstn. apply sortByScore_sorted.
  - intros v. destruct (Nat.eq_dec v 0) as [->|Hv].
    + assert (E : filter (fun c => scoreChunk stopwords query c =? 0)
                    (map chunk (firstn (Z.to_nat k)
                                  (rankChunks stopwords query chunks))) = []).
      { apply filter_nothing. apply Forall_forall. intros c Hc.
        apply in_map_iff in Hc as (s & <- & Hs).
        pose proof (rankChunks_relevant chunks) as Hr.
        rewrite Forall_forall in Hw, Hr.
        assert (Hin : In s (rankChunks stopwords query chunks)).
        { rewrite <- (firstn_skipn (Z.to_nat k)). apply in_or_app. now left. }
        apply Nat.eqb_neq. rewrite <- (Hw s Hin).
        destruct (Hr s Hin) as [Hpos _]. lia. }
      rewrite E. eexists. reflexivity.
    + exists (map chunk
                (filter (fun s => score s =? v)
                   (skipn (Z.to_nat k) (rankChunks stopwords query chunks)))).
      rewrite (map_chunk_filter (fun n => n =? v)) by now apply Forall_firstn_of.
      rewrite <- map_app, <- filter_app, firstn_skipn.
      symmetry. apply rankChunks_class. lia.
Qed.

End RetrieverFacts.

(** * The claims at concrete requests *)

Lemma scope_refusal_short_circuits_witness :
  exists log,
    POST (demoEnv (inr demoDocs) (demoService (Some "hi")))
         (userSays "what's the best pizza topping") [] =
    (inr (JsonResponse 200 demoRefusal), log)
    /\ log = [CallReqJson; CallClassifyScope "what's the best pizza topping"]
    /\ forallb (fun c => negb (isDownstream c)) log = true.
Proof.
  apply (scope_refusal_short_circuits
           (demoEnv (inr demoDocs) (demoService (Some "hi")))
           (Some [mkChatMsg User "what's the best pizza topping"])
           (mkScope false demoRefusal)); reflexivity.
Defined.

Lemma stage_failure_is_plain_500_witness :
  exists log,
    POST (demoEnv (inr demoDocs) (demoService (Some "hi"))) unparsable [] =
    (inr (TextResponse 500 "Unexpected end of JSON input"), log).
Proof.
  apply (proj1 (stage_failure_is_plain_500
                  (demoEnv (inr demoDocs) (demoService (Some "hi")))
                  unparsable)
               (mkThrown MalformedRequest (Some "Unexpected end of JSON input"))).
  apply ParseFails.
Defined.

(** The propagation policy fails on the handler: an unparsable request body
    (a malformed request) is answered with status 500, not with a 4xx; and the
    detail of a completion-service failure is handed to the caller as the body
    of the 500 response. *)
Lemma malformed_request_gets_500_and_detail_leaks :
  (StageFailure (demoEnv (inr demoDocs) (demoService (Some "hi"))) unparsable
     (mkThrown MalformedRequest (Some "Unexpected end of JSON input"))
   /\ POST (demoEnv (inr demoDocs) (demoService (Some "hi"))) unparsable [] =
      (inr (TextResponse 500 "Unexpected end of JSON input"), [CallReqJson])
   /\ is4xx (TextResponse 500 "Unexpected end of JSON input") = false)
  /\ (exists log,
        POST (demoEnv (inr demoDocs)
                (failingService "401 Incorrect API key provided: sk-demo"))
             (userSays "what is a vector") [] =
        (inr (TextResponse 500 "401 Incorrect API key provided: sk-demo"), log)).
Proof.
  split; [split; [apply ParseFails|split; reflexivity]|].
  eexists. vm_compute. reflexivity.
Defined.

Lemma only_last_user_turn_is_read_witness :
  POST (demoEnv (inr demoDocs) (demoService (Some "hi")))
       (inr (JsonObject (Some [mkChatMsg User "what is a vector";
                               mkChatMsg Assistant "A quantity with direction."]))) [] =
  POST (demoEnv (inr demoDocs) (demoService (Some "hi")))
       (inr (JsonObject (Some [mkChatMsg User "best pizza topping?";
                               mkChatMsg Assistant "I can only help with physics.";
                               mkChatMsg User "what is a vector"]))) [].
Proof.
  apply (only_last_user_turn_is_read
           (demoEnv (inr demoDocs) (demoService (Some "hi")))
           [] [mkChatMsg Assistant "A quantity with direction."]
           [mkChatMsg User "best pizza topping?";
            mkChatMsg Assistant "I can only help with physics."] []
           (mkChatMsg User "what is a vector")
           (mkChatMsg User "what is a vector")).
  - reflexivity.
  - repeat constructor.
  - reflexivity.
  - constructor.
  - reflexivity.
Defined.

Lemma missing_content_gets_placeholder_witness :
  exists log,
    POST (demoEnv (inr demoDocs) (demoService None))
         (userSays "what is a vector") [] =
    (inr (JsonResponse 200 "No response."), log).
Proof.
  eexists.
  eapply (missing_content_gets_placeholder
            (demoEnv (inr demoDocs) (demoService None))
            (Some [mkChatMsg User "what is a vector"])).
  - reflexivity.
  - reflexivity.
  - reflexivity.
  - reflexivity.
  - reflexivity.
  - reflexivity.
  - reflexivity.
  - reflexivity.
  - right. exists (mkChoice (Some (mkCompletionMessage None))), [].
    split; [reflexivity|]. right.
    exists (mkCompletionMessage None). split; reflexivity.
Defined.

Lemma chunkText_slides_window_witness :
  exists chunks,
    chunkText "AAAAABBBBBCCCCC" (mkChunkConfig 10 2 "doc") = inr chunks
    /\ (forall i, S i < List.length chunks -> i * 8 + 10 <= 15)
    /\ exists n, List.length chunks = S n /\ 15 <= n * 8 + 10.
Proof.
  destruct (chunkText_slides_window "AAAAABBBBBCCCCC" (mkChunkConfig 10 2 "doc"))
    as (chunks & Hrun & _ & Hfull & Hlast & _).
  - cbn. lia.
  - exists chunks. split; [exact Hrun|]. split; [exact Hfull|].
    apply Hlast. discriminate.
Defined.

Lemma chunks_reassemble_text_witness :
  exists chunks,
    chunkText "AAAAABBBBBCCCCC" (mkChunkConfig 10 2 "doc") = inr chunks
    /\ reassemble 2 chunks = "AAAAABBBBBCCCCC".
Proof.
  apply (chunks_reassemble_text "AAAAABBBBBCCCCC" (mkChunkConfig 10 2 "doc")).
  cbn. lia.
Defined.


Lemma retrieval_respects_k_witness :
  retrieveTopChunksKeyword demoStopwords "what is a vector" scenarioChunks 6 =
  [vectorChunk]
  /\ (Z.of_nat (List.length
                  (relevantChunks demoStopwords "what is a vector" scenarioChunks))
      < 6)%Z.
Proof.
  split; [vm_compute; reflexivity|].
  destruct (retrieval_respects_k demoStopwords "what is a vector"
              scenarioChunks 6) as (_ & _ & Hfew & _).
  apply Hfew. vm_compute. reflexivity.
Defined.

Lemma retrieval_is_stable_witness :
  retrieveTopChunksKeyword demoStopwords "vector or scalar" tiedChunks 2 =
  [mkChunk "A scalar is not a vector." "b" 0;
   mkChunk "Every vector has a direction." "a" 0]
  /\ retrieveTopChunksKeyword demoStopwords "vector or scalar" tiedChunks (1 + 1) =
     retrieveTopChunksKeyword demoStopwords "vector or scalar" tiedChunks 2.
Proof.
  split; [vm_compute; reflexivity|].
  destruct (retrieval_is_stable demoStopwords "vector or scalar" tiedChunks 2)
    as (Hsame & _).
  apply Hsame; reflexivity.
Defined.

(** * More on the route handler *)

Section HandlerMore.

Variable env : Collaborators.




(** X2.  When [chunkText] succeeds on every document, the chunking stage
    calls it once per document, in document order, with size 900, overlap 120
    and the document's path as label, and yields the documents' chunks
    concatenated in that order. *)
Theorem chunking_keeps_document_order (docs : list Document)
    (chunksOf : Document -> list Chunk) (log : list Call) :
  (forall d, In d docs ->
     chunkText_of env (doc_text d) (mkChunkConfig 900 120 (path d)) =
     inr (chunksOf d)) ->
  chunkAll env docs log =
  (inr (flat_map chunksOf docs),
   log ++ map (fun d => CallChunkText (doc_text d)
                          (mkChunkConfig 900 120 (path d))) docs).
Proof.
  intros H. rewrite chunkAll_run. f_equal.
  - induction docs as [|d rest IH]; [reflexivity|].
    cbn [chunkOutcome flat_map]. unfold handlerChunkConfig at 1.
    rewrite (H d) by (cbn; auto).
    rewrite IH by (intros x Hx; apply H; cbn; auto). reflexivity.
  - f_equal. induction docs as [|d rest IH]; [reflexivity|].
    cbn [chunkCalls map]. unfold handlerChunkConfig at 1 2.
    rewrite (H d) by (cbn; auto).
    rewrite IH by (intros x Hx; apply H; cbn; auto). reflexivity.
Qed.

(** X3.  The chunking stage stops at the first document on which [chunkText]
    throws: the thrown value is the stage's, the chunks of the earlier
    documents are lost, and no later document is passed to [chunkText]. *)
Theorem chunking_stops_at_first_throw (before after : list Document)
    (d : Document) (chunksOf : Document -> list Chunk) (e : Thrown)
    (log : list Call) :
  (forall x, In x before ->
     chunkText_of env (doc_text x) (mkChunkConfig 900 120 (path x)) =
     inr (chunksOf x)) ->
  chunkText_of env (doc_text d) (mkChunkConfig 900 120 (path d)) = inl e ->
  chunkAll env (before ++ d :: after) log =
  (inl e,
   log ++ map (fun x => CallChunkText (doc_text x)
                          (mkChunkConfig 900 120 (path x))) (before ++ [d])).
Proof.
  intros Hb Hd. rewrite chunkAll_run. f_equal.
  - induction before as [|x rest IH]; cbn [app chunkOutcome].
    + unfold handlerChunkConfig. now rewrite Hd.
    + unfold handlerChunkConfig at 1. rewrite (Hb x) by (cbn; auto).
      rewrite IH by (intros y Hy; apply Hb; cbn; auto). reflexivity.
  - f_equal. induction before as [|x rest IH]; cbn [app chunkCalls map].
    + unfold handlerChunkConfig. now rewrite Hd.
    + unfold handlerChunkConfig at 1 2. rewrite (Hb x) by (cbn; auto).
      rewrite IH by (intros y Hy; apply Hb; cbn; auto). reflexivity.
Qed.

(** X4.  The calls of a request are always an initial segment of one fixed
    sequence: [req.json()], [classifyScope] on the last user content,
    [loadAllMdxDocuments], [chunkText] document by document,
    [retrieveTopChunksKeyword] with K = 6, [buildSystemPrompt],
    [buildUserPrompt], and the completion call last.  No stage runs before
    the one it follows, whatever the collaborators do.  A body of the type of
    the handler's cast gets at least as far as [classifyScope]; a body that
    does not parse, the body [null] and an ill-typed body on which the
    handler throws get no further than [req.json()]. *)
Theorem stages_run_in_order (req : RequestJson) (resp : Response)
    (log : list Call) :
  POST env req [] = (inr resp, log) ->
  exists q docs chunks top system user rest,
    fullLog env q docs chunks top system user = log ++ rest
    /\ log <> []
    /\ (forall field, req = inr (JsonObject field) ->
          q = lastUserContent (messagesOrEmpty field)
          /\ 2 <= List.length log)
    /\ ((forall field, req <> inr (JsonObject field)) ->
          log = [CallReqJson]).
Proof.
  assert (Early : log = [CallReqJson] ->
            (forall field : option (list ChatMsg),
                req <> inr (JsonObject field)) ->
            exists q docs chunks top system user rest,
              fullLog env q docs chunks top system user = log ++ rest
              /\ log <> []
              /\ (forall field, req = inr (JsonObject field) ->
                    q = lastUserContent (messagesOrEmpty field)
                    /\ 2 <= List.length log)
              /\ ((forall field, req <> inr (JsonObject field)) ->
                    log = [CallReqJson])).
  { intros -> Hno. exists "", [], [], [], "", "". eexists.
    split; [reflexivity|]. split; [discriminate|].
    split; [intros field Heq; exfalso; exact (Hno field Heq)|auto]. }
  unfold POST, try_catch, handle. rewrite bind_readMessages.
  destruct req as [e|[|field|fault]].
  1,2,4: intros H; injection H as _ <-; apply Early;
         [reflexivity | discriminate].
  clear Early.
  assert (Late : forall docs chunks top system user rest,
            fullLog env (lastUserContent (messagesOrEmpty field))
                    docs chunks top system user = log ++ rest ->
            2 <= List.length log ->
            exists q docs chunks top system user rest,
              fullLog env q docs chunks top system user = log ++ rest
              /\ log <> []
              /\ (forall field0,
                    @inr Thrown _ (JsonObject field) = inr (JsonObject field0) ->
                    q = lastUserContent (messagesOrEmpty field0)
                    /\ 2 <= List.length log)
              /\ ((forall field0,
                      @inr Thrown _ (JsonObject field)
                      <> inr (JsonObject field0)) ->
                    log = [CallReqJson])).
  { intros docs chunks top system user rest Hr Hl.
    exists (lastUserContent (messagesOrEmpty field)),
           docs, chunks, top, system, user, rest.
    split; [exact Hr|]. split; [destruct log; [cbn in Hl; lia|discriminate]|].
    split.
    - intros field0 Heq. injection Heq as <-. auto.
    - intros Hno. exfalso. exact (Hno field eq_refl). }
  rewrite bind_call.
  destruct (classifyScope_of env _) as [e|d].
  { intros H; injection H as _ <-.
    eapply (Late [] [] [] "" ""); [reflexivity|cbn; lia]. }
  destruct (allowed d); cbn [negb].
  2:{ intros H; injection H as _ <-.
      eapply (Late [] [] [] "" ""); [reflexivity|cbn; lia]. }
  rewrite bind_call.
  destruct (loadAllMdxDocuments_of env) as [e|docs].
  { intros H; injection H as _ <-.
    eapply (Late [] [] [] "" ""); [reflexivity|cbn; lia]. }
  rewrite bind_chunkAll.
  destruct (chunkOutcome env docs) as [e|chunks].
  { intros H; injection H as _ <-.
    eapply (Late docs [] [] "" "");
      [unfold fullLog; cbn [app]; reflexivity|cbn; lia]. }
  rewrite bind_call.
  destruct (retrieveTopChunksKeyword_of env _ chunks 6) as [e|top].
  { intros H; injection H as _ <-.
    eapply (Late docs chunks [] "" "");
      [unfold fullLog; cbn [app]; rewrite <- !app_assoc; reflexivity
      |cbn; lia]. }
  rewrite bind_call.
  destruct (buildSystemPrompt_of env) as [e|system].
  { intros H; injection H as _ <-.
    eapply (Late docs chunks [] "" "");
      [unfold fullLog; cbn [app]; rewrite <- !app_assoc; reflexivity
      |cbn; lia]. }
  rewrite bind_call.
  destruct (buildUserPrompt_of env _ top) as [e|user].
  { intros H; injection H as _ <-.
    eapply (Late docs chunks top "" "");
      [unfold fullLog; cbn [app]; rewrite <- !app_assoc; reflexivity
      |cbn; lia]. }
  rewrite bind_call.
  destruct (completionsCreate_of env (completionRequest system user)) as [e|c];
    intros H; injection H as _ <-;
    (eapply (Late docs chunks top system user);
      [unfold fullLog; cbn [app]; rewrite <- !app_assoc; cbn [app];
       reflexivity
      |cbn; lia]).
Qed.

(** On a parsed body, [classifyScope] on the last user content is the first
    collaborator called. *)
Lemma POST_log_head (field : option (list ChatMsg)) :
  exists resp rest,
    POST env (inr (JsonObject field)) [] =
    (inr resp,
     CallReqJson
     :: CallClassifyScope (lastUserContent (messagesOrEmpty field)) :: rest).
Proof.
  unfold POST, try_catch, handle. rewrite bind_readMessages, bind_call.
  destruct (classifyScope_of env _) as [e|d]; [eexists _, _; reflexivity|].
  destruct (allowed d); cbn [negb]; [|eexists _, _; reflexivity].
  rewrite bind_call.
  destruct (loadAllMdxDocuments_of env) as [e|docs];
    [eexists _, _; reflexivity|].
  rewrite bind_chunkAll.
  destruct (chunkOutcome env docs) as [e|chunks];
    [eexists _, _; cbn [app]; reflexivity|].
  rewrite bind_call.
  destruct (retrieveTopChunksKeyword_of env _ chunks 6) as [e|top];
    [eexists _, _; cbn [app]; reflexivity|].
  rewrite bind_call.
  destruct (buildSystemPrompt_of env) as [e|system];
    [eexists _, _; cbn [app]; reflexivity|].
  rewrite bind_call.
  destruct (buildUserPrompt_of env _ top) as [e|user];
    [eexists _, _; cbn [app]; reflexivity|].
  rewrite bind_call.
  destruct (completionsCreate_of env (completionRequest system user));
    eexists _, _; cbn [app]; reflexivity.
Qed.

(** X5.  A body without [messages], with an empty list, or with assistant
    messages only is handled as one and the same request: the classifier is
    asked about the empty string. *)
Theorem no_user_turn_is_the_empty_query (msgs : list ChatMsg) :
  Forall (fun m => role m = Assistant) msgs ->
  lastUserContent msgs = ""
  /\ POST env (inr (JsonObject (Some msgs))) [] =
     POST env (inr (JsonObject None)) []
  /\ exists resp rest,
       POST env (inr (JsonObject (Some msgs))) [] =
       (inr resp, CallReqJson :: CallClassifyScope "" :: rest).
Proof.
  intros H.
  assert (E : lastUserContent msgs = "").
  { unfold lastUserContent. now rewrite lastUserMessage_none. }
  split; [exact E|]. split.
  - apply POST_reads_lastUserContent. cbn. exact E.
  - destruct (POST_log_head (Some msgs)) as (resp & rest & Hrun).
    cbn [messagesOrEmpty] in Hrun. rewrite E in Hrun. eauto.
Qed.

End HandlerMore.

Lemma find_first {A} (f : A -> bool) (l : list A) (x : A) :
  find f l = Some x ->
  exists l1 l2,
    l = l1 ++ x :: l2 /\ f x = true /\ Forall (fun y => f y = false) l1.
Proof.
  induction l as [|y l IH]; [discriminate|]. cbn.
  destruct (f y) eqn:Ey.
  - intros [= ->]. exists [], l. auto.
  - intros H. destruct (IH H) as (l1 & l2 & -> & Hx & Hl1).
    exists (y :: l1), l2. auto.
Qed.

Lemma isUser_false (m : ChatMsg) : isUser m = false <-> role m = Assistant.
Proof. unfold isUser. destruct (role m); split; congruence. Qed.

(** X6.  What the handler takes as the latest user message is the last
    message of role user in the list, wherever it stands: [m] is picked
    exactly when it has role user and only assistant messages follow it; and
    nothing is picked exactly when no message has role user. *)
Theorem lastUserMessage_characterised (msgs : list ChatMsg) :
  (forall m,
      lastUserMessage msgs = Some m <->
      exists before after,
        msgs = before ++ m :: after
        /\ role m = User
        /\ Forall (fun x => role x = Assistant) after)
  /\ (lastUserMessage msgs = None <->
      Forall (fun x => role x = Assistant) msgs).
Proof.
  split.
  - intros m. split.
    + unfold lastUserMessage. intros H.
      apply find_first in H as (l1 & l2 & Hrev & Hm & Hl1).
      exists (rev l2), (rev l1). split; [|split].
      * rewrite <- (rev_involutive msgs), Hrev, rev_app_distr. cbn [rev].
        now rewrite <- app_assoc.
      * unfold isUser in Hm. destruct (role m); [reflexivity|discriminate].
      * apply Forall_forall. intros x Hx. apply in_rev in Hx.
        rewrite Forall_forall in Hl1. now apply isUser_false, Hl1.
    + intros (before & after & -> & Hm & Hafter).
      now apply lastUserMessage_last.
  - split.
    + unfold lastUserMessage. intros H. apply Forall_forall. intros x Hx.
      apply isUser_false. apply (find_none _ _ H). now apply in_rev in Hx.
    + apply lastUserMessage_none.
Qed.

(** * The chat widget against the route *)

Section WidgetFacts.

Variable trim : string -> string.

Lemma send_posted (st : WidgetState)
    (fetch : list ChatMsg -> Reason + FetchResponse) :
  canSend trim st = true ->
  send trim st fetch =
  match exchange fetch (w_messages st ++ [userTurn trim st]) with
  | inr (DataObject reply) =>
      Shown (mkWidget (w_messages st
                       ++ [userTurn trim st; mkChatMsg Assistant reply])
                      "" false)
  | inr DataNull => RenderThrows ReplyOfNull
  | inl (Some err) =>
      Shown (mkWidget (w_messages st
                       ++ [userTurn trim st;
                           mkChatMsg Assistant (debugHint err)])
                      "" false)
  | inl None => RenderThrows MessageOfNull
  end.
Proof.
  intros H. unfold send. rewrite H. cbn [negb sendStart w_messages w_input].
  destruct (exchange fetch _) as [[err|]|[|reply]];
    rewrite <- ?app_assoc; reflexivity.
Qed.

Lemma posted_query (st : WidgetState) :
  lastUserContent (w_messages st ++ [userTurn trim st]) = trim (w_input st).
Proof.
  unfold lastUserContent.
  now rewrite (lastUserMessage_last (w_messages st) [] (userTurn trim st)).
Qed.

Variable env : Collaborators.
Variable jsonText : string -> string.
Variable parseData : string -> Reason + JsonData.

(** X7.  When [send] posts, the server classifies exactly the trimmed text of
    the input box, whatever the conversation so far, and that text is not
    empty: the widget never has the route classify a blank question. *)
Theorem widget_query_is_the_trimmed_input (st : WidgetState) :
  canSend trim st = true ->
  trim (w_input st) <> ""
  /\ exists resp rest,
       POST env (inr (JsonObject (Some (w_messages st ++ [userTurn trim st])))) [] =
       (inr resp,
        CallReqJson :: CallClassifyScope (trim (w_input st)) :: rest).
Proof.
  intros H. split.
  - unfold canSend in H. apply andb_true_iff in H as [H _].
    apply Nat.ltb_lt in H. intros E. rewrite E in H. cbn in H. lia.
  - destruct (POST_log_head env (Some (w_messages st ++ [userTurn trim st])))
      as (resp & rest & Hrun).
    cbn [messagesOrEmpty] in Hrun. rewrite posted_query in Hrun. eauto.
Qed.

(** X8.  End to end, a stage that throws on the server reaches the student
    as the assistant message "Sorry — something went wrong. Debug hint: "
    followed by the thrown value's message ("Server error" when it has none,
    "Request failed" when it is empty); the user message stays in the
    conversation, the input is cleared and loading ends. *)
Theorem widget_shows_the_failure (st : WidgetState) (e : Thrown) :
  canSend trim st = true ->
  StageFailure env
    (inr (JsonObject (Some (w_messages st ++ [userTurn trim st])))) e ->
  send trim st (fetchChat jsonText parseData env) =
  Shown
    (mkWidget
       (w_messages st
        ++ [mkChatMsg User (trim (w_input st));
            mkChatMsg Assistant
              ("Sorry — something went wrong.

Debug hint: " ++ orRequestFailed (errorText e))%string])
       "" false).
Proof.
  intros Hs F. rewrite send_posted by assumption.
  destruct (failure_run env _ e F) as [log [Hrun _]].
  unfold exchange, fetchChat. rewrite Hrun. reflexivity.
Qed.

(** X9.  End to end, a JSON answer of the route, the refusal as much as a
    completion, is appended as the assistant message word for word, after
    the user message. *)
Theorem widget_shows_the_reply (st : WidgetState) (reply : string)
    (log : list Call) :
  canSend trim st = true ->
  POST env (inr (JsonObject (Some (w_messages st ++ [userTurn trim st])))) [] =
  (inr (JsonResponse 200 reply), log) ->
  send trim st (fetchChat jsonText parseData env) =
  Shown
    (mkWidget
       (w_messages st
        ++ [mkChatMsg User (trim (w_input st)); mkChatMsg Assistant reply])
       "" false).
Proof.
  intros Hs Hrun. rewrite send_posted by assumption.
  unfold exchange, fetchChat. rewrite Hrun. reflexivity.
Qed.

Lemma exchangeRoles_snoc (n : nat) :
  exchangeRoles n ++ [User; Assistant] = exchangeRoles (S n).
Proof.
  induction n as [|n IH]; [reflexivity|].
  cbn [exchangeRoles app]. rewrite IH. reflexivity.
Qed.

(** One step keeps the conversation whole. *)
Lemma widgetStep_alternates (st st' : WidgetState) (ev : WidgetEvent) (n : nat) :
  map role (w_messages st) = Assistant :: exchangeRoles n ->
  w_loading st = false ->
  widgetStep trim st ev = Shown st' ->
  w_loading st' = false
  /\ exists m,
       map role (w_messages st') = Assistant :: exchangeRoles m
       /\ m <= n + (if isSent ev then 1 else 0).
Proof.
  intros Hr Hl Hstep. destruct ev as [text|fetch]; cbn [widgetStep isSent] in *.
  - injection Hstep as <-. cbn. split; [exact Hl|]. exists n. split; [exact Hr|lia].
  - destruct (canSend trim st) eqn:Hc.
    + rewrite send_posted in Hstep by assumption.
      assert (Hgrow : forall content,
                map role (w_messages st
                          ++ [userTurn trim st; mkChatMsg Assistant content]) =
                Assistant :: exchangeRoles (S n)).
      { intros content. rewrite map_app, Hr. cbn [map role userTurn app].
        f_equal. apply exchangeRoles_snoc. }
      destruct (exchange fetch _) as [[err|]|[|reply]];
        try discriminate; injection Hstep as <-; cbn [w_loading w_messages];
        (split; [reflexivity|]); exists (S n); (split; [apply Hgrow|lia]).
    + unfold send in Hstep. rewrite Hc in Hstep. cbn [negb] in Hstep.
      injection Hstep as <-. split; [exact Hl|].
      exists n. split; [exact Hr|lia].
Qed.

(** X10.  Whatever the student types and whatever each [fetch] does (reject,
    answer with an error status, answer with an unreadable body), as long as
    no render throws (on a [null] body or a [null] rejection) the
    conversation stays the greeting followed by whole exchanges, a user
    message and then an assistant message, at most one exchange per send
    tried, and the widget is not left loading. *)
Theorem widget_conversation_alternates (evs : list WidgetEvent)
    (st : WidgetState) :
  widgetRun trim widgetInit evs = Shown st ->
  w_loading st = false
  /\ exists n,
       map role (w_messages st) = Assistant :: exchangeRoles n
       /\ n <= sendsTried evs.
Proof.
  assert (G : forall evs st0 n,
             map role (w_messages st0) = Assistant :: exchangeRoles n ->
             w_loading st0 = false ->
             widgetRun trim st0 evs = Shown st ->
             w_loading st = false
             /\ exists m,
                  map role (w_messages st) = Assistant :: exchangeRoles m
                  /\ m <= n + sendsTried evs).
  { clear evs. induction evs as [|ev evs IH]; intros st0 n Hr Hl Hrun.
    - cbn in Hrun. injection Hrun as <-. split; [exact Hl|].
      exists n. split; [exact Hr|lia].
    - cbn [widgetRun] in Hrun.
      destruct (widgetStep trim st0 ev) as [st1|fault] eqn:Hstep;
        [|discriminate].
      destruct (widgetStep_alternates st0 st1 ev n Hr Hl Hstep)
        as (Hl1 & m1 & Hr1 & Hm1).
      destruct (IH st1 m1 Hr1 Hl1 Hrun) as (Hl' & m & Hr' & Hm).
      split; [exact Hl'|]. exists m. split; [exact Hr'|].
      unfold sendsTried in *. cbn [filter].
      destruct (isSent ev); cbn [List.length] in *; lia. }
  intros Hrun.
  destruct (G evs widgetInit 0) as (Hl & m & Hr & Hm);
    [reflexivity|reflexivity|exact Hrun|].
  split; [exact Hl|]. exists m. auto.
Qed.

(** X17.  Against the route, no render of the widget throws: whatever the
    collaborators do, the route's answer is either a JSON body with a reply
    or an error status, so [send] always ends with the conversation shown. *)
Theorem route_never_breaks_the_render (st : WidgetState) :
  exists st', send trim st (fetchChat jsonText parseData env) = Shown st'.
Proof.
  destruct (canSend trim st) eqn:Hc.
  2:{ exists st. unfold send. now rewrite Hc. }
  rewrite send_posted by assumption. unfold exchange, fetchChat.
  destruct (request_outcomes env
              (inr (JsonObject (Some (w_messages st ++ [userTurn trim st])))))
    as [[e F]|[R|C]].
  - destruct (failure_run env _ e F) as [log [Hrun _]]. rewrite Hrun.
    eexists. reflexivity.
  - destruct R as (field & d & [= <-] & Hs & Ha).
    rewrite (refused_run env _ d Hs Ha). eexists. reflexivity.
  - destruct C as (field & d & docs & chunks & top & system & user & resp
                   & [= <-] & Hs & Ha & Hl & Hch & Hr & Hsys & Hu & Hresp).
    rewrite (completed_run env _ d docs chunks top system user resp
                           Hs Ha Hl Hch Hr Hsys Hu Hresp).
    eexists. reflexivity.
Qed.

End WidgetFacts.

(** * The quiz card *)

Lemma findIndexFrom_spec (answer : string) (options : list string) (i : Z) :
  (~ In answer options /\ findIndexFrom answer options i = (-1)%Z)
  \/ (exists n,
        findIndexFrom answer options i = (i + Z.of_nat n)%Z
        /\ nth_error options n = Some answer
        /\ forall j, j < n -> nth_error options j <> Some answer).
Proof.
  revert i. induction options as [|opt rest IH]; intros i.
  - left. split; [intros []|reflexivity].
  - cbn [findIndexFrom]. destruct (String.eqb opt answer) eqn:E.
    + apply String.eqb_eq in E. subst opt. right. exists 0.
      split; [lia|]. split; [reflexivity|]. intros j Hj. lia.
    + apply String.eqb_neq in E.
      destruct (IH (i + 1)%Z) as [[Hno Hm]|(n & Hn & Hnth & Hfirst)].
      * left. split; [|exact Hm]. intros [H|H]; [congruence|contradiction].
      * right. exists (S n). split; [lia|]. split; [exact Hnth|].
        intros [|j] Hj; cbn; [congruence|]. apply Hfirst. lia.
Qed.

Section McqFacts.

Variable options : list string.
Variable correctAnswer : CorrectAnswer.
Variable defaultOpen : bool.

Lemma verdictSound_step (st : McqState) (ev : McqEvent) :
  verdictSound options correctAnswer st ->
  verdictSound options correctAnswer (mcqStep options correctAnswer st ev).
Proof.
  intros [Hv Hsel]. unfold mcqStep.
  destruct (available options st ev) eqn:Hav; [|split; auto].
  destruct ev as [|idx| |].
  - split; auto.
  - cbn in Hav. apply andb_true_iff in Hav as [Hidx Hlock].
    apply Nat.ltb_lt in Hidx. unfold onSelect.
    apply negb_true_iff in Hlock. rewrite Hlock.
    unfold isLocked in Hlock.
    split; cbn.
    + destruct (status st); [exact I|discriminate|exact I].
    + intros i [= <-]. exact Hidx.
  - unfold onSubmit. destruct (isLocked st) eqn:Hlock; [split; auto|].
    destruct (selectedIndex st) as [sel|] eqn:Hs.
    + pose proof (Hsel sel eq_refl) as Hlt.
      destruct (canGrade options correctAnswer) eqn:Hg; cbn [negb].
      * destruct (Z.of_nat sel =? correctIndex options correctAnswer)%Z eqn:E.
        -- apply Z.eqb_eq in E. split; cbn; [eauto|].
           intros i [= <-]. exact Hlt.
        -- apply Z.eqb_neq in E. split; cbn; [eauto|].
           intros i [= <-]. exact Hlt.
      * split; cbn; [eauto|]. intros i [= <-]. exact Hlt.
    + rewrite <- Hs in Hv, Hsel. split; [exact Hv|exact Hsel].
  - split; cbn; [exact I|discriminate].
Qed.

Lemma verdictSound_run (evs : list McqEvent) (st : McqState) :
  verdictSound options correctAnswer st -> verdictSound options correctAnswer (mcqRun options correctAnswer st evs).
Proof.
  revert st. induction evs as [|ev evs IH]; intros st H; [exact H|].
  cbn. apply IH. now apply verdictSound_step.
Qed.

Lemma verdictSound_init : verdictSound options correctAnswer (mcqInit defaultOpen).
Proof. split; cbn; [exact I|discriminate]. Qed.

Lemma locked_step (st : McqState) (ev : McqEvent) :
  status st = Correct ->
  status (mcqStep options correctAnswer st ev) = Correct
  /\ selectedIndex (mcqStep options correctAnswer st ev) = selectedIndex st.
Proof.
  intros H. unfold mcqStep, available, isLocked. rewrite H.
  destruct ev; cbn; rewrite ?andb_false_r; auto.
Qed.

(** X11.  Once the card shows "correct" it is locked: no sequence of clicks
    (options, submit, try again, expand or collapse) changes the verdict or
    the selection. *)
Theorem correct_answer_locks_the_card (st : McqState) (evs : list McqEvent) :
  status st = Correct ->
  status (mcqRun options correctAnswer st evs) = Correct
  /\ selectedIndex (mcqRun options correctAnswer st evs) = selectedIndex st.
Proof.
  revert st. induction evs as [|ev evs IH]; intros st H; [auto|].
  cbn [mcqRun fold_left].
  destruct (locked_step st ev H) as [Hs Hsel].
  destruct (IH _ Hs) as [Hs' Hsel']. unfold mcqRun in *.
  split; [exact Hs'|congruence].
Qed.

(** X12.  From the initial state, whatever the student does, the verdict
    agrees with the selection: "correct" is shown only while the selected
    option is the correct one (for an answer given as text, the first option
    equal to it; for one given as a number, the option at that index), and
    the hint is shown only while an option is selected that is not the
    correct one, or the answer matches no option. *)
Theorem verdict_matches_selection (evs : list McqEvent) :
  let st := mcqRun options correctAnswer (mcqInit defaultOpen) evs in
  (status st = Correct ->
     exists i,
       selectedIndex st = Some i
       /\ i < List.length options
       /\ match correctAnswer with
          | ByIndex k => k = Z.of_nat i
          | ByText s =>
              nth_error options i = Some s
              /\ forall j, j < i -> nth_error options j <> Some s
          end)
  /\ (status st = Wrong ->
        exists i,
          selectedIndex st = Some i
          /\ i < List.length options
          /\ (Z.of_nat i <> correctIndex options correctAnswer
              \/ canGrade options correctAnswer = false)).
Proof.
  intros st.
  pose proof (verdictSound_run evs _ verdictSound_init) as [Hv _].
  fold st in Hv. split; intros Hst; rewrite Hst in Hv; [|exact Hv].
  destruct Hv as (i & Hsel & Hlt & Hci). exists i.
  split; [exact Hsel|]. split; [exact Hlt|].
  unfold correctIndex in Hci. destruct correctAnswer as [k|s]; [auto|].
  unfold findIndex in Hci.
  destruct (findIndexFrom_spec s options 0)
    as [[_ Hm]|(n & Hn & Hnth & Hfirst)]; [lia|].
  assert (i = n) by lia. subst n. auto.
Qed.

Lemma ungradable (Hbad : match correctAnswer with
                         | ByIndex k =>
                             (k < 0 \/ Z.of_nat (List.length options) <= k)%Z
                         | ByText s => ~ In s options
                         end) :
  canGrade options correctAnswer = false.
Proof.
  unfold canGrade, correctIndex. destruct correctAnswer as [k|s].
  - apply andb_false_iff. destruct Hbad; [left|right]; lia.
  - unfold findIndex.
    destruct (findIndexFrom_spec s options 0)
      as [[_ Hm]|(n & _ & Hnth & _)].
    + rewrite Hm. reflexivity.
    + exfalso. apply Hbad. eapply nth_error_In, Hnth.
Qed.

(** X13.  When the answer cannot be graded (a text equal to no option, or an
    index outside the options), the card never shows "correct", and
    submitting any option shows the hint. *)
Theorem ungradable_answer_is_never_correct (evs : list McqEvent) (idx : nat) :
  match correctAnswer with
  | ByIndex k => (k < 0 \/ Z.of_nat (List.length options) <= k)%Z
  | ByText s => ~ In s options
  end ->
  status (mcqRun options correctAnswer (mcqInit defaultOpen) evs) <> Correct
  /\ (idx < List.length options ->
      status (mcqRun options correctAnswer (mcqInit defaultOpen)
                (evs ++ [Select idx; Submit])) = Wrong).
Proof.
  intros Hbad. pose proof (ungradable Hbad) as Hg.
  assert (Hnever : status (mcqRun options correctAnswer (mcqInit defaultOpen) evs)
                   <> Correct).
  { intros Hst.
    pose proof (verdictSound_run evs _ verdictSound_init) as [Hv _].
    rewrite Hst in Hv. destruct Hv as (i & _ & Hlt & Hci).
    unfold canGrade in Hg. rewrite <- Hci in Hg.
    apply andb_false_iff in Hg. destruct Hg; lia. }
  split; [exact Hnever|]. intros Hidx.
  unfold mcqRun in *. rewrite fold_left_app. cbn [fold_left].
  set (st := fold_left (mcqStep options correctAnswer) evs
               (mcqInit defaultOpen)) in *.
  assert (Hl : isLocked st = false).
  { unfold isLocked. destruct (status st); congruence. }
  assert (Hs : mcqStep options correctAnswer st (Select idx) =
               mkMcq (isOpen st) (Some idx)
                     match status st with Wrong => Idle | other => other end).
  { unfold mcqStep, available. rewrite Hl.
    apply Nat.ltb_lt in Hidx. rewrite Hidx. cbn [andb negb].
    unfold onSelect. now rewrite Hl. }
  rewrite Hs. unfold mcqStep, available, isLocked, onSubmit, isLocked.
  cbn [status selectedIndex isOpen].
  destruct (status st); try congruence; cbn; rewrite Hg; reflexivity.
Qed.

Lemma sameQuiz_step (a b : McqState) (ev : McqEvent) :
  sameQuiz a b ->
  sameQuiz (mcqStep options correctAnswer a ev)
           (mcqStep options correctAnswer b ev).
Proof.
  intros [Hsel Hst].
  unfold sameQuiz, mcqStep, available, onSubmit, onSelect, onTryAgain,
    onToggle, isLocked.
  rewrite Hsel, Hst.
  destruct ev as [|idx| |], (status b) eqn:Eb, (selectedIndex b) as [sel|] eqn:Es;
    cbn [andb orb negb];
    try destruct (idx <? List.length options);
    try destruct (canGrade options correctAnswer);
    try destruct (Z.of_nat sel =? correctIndex options correctAnswer)%Z;
    cbn; split; congruence.
Qed.

Lemma sameQuiz_toggle (a b : McqState) :
  sameQuiz a b -> sameQuiz (mcqStep options correctAnswer a Toggle) b.
Proof. intros H. exact H. Qed.

(** X14.  Expanding and collapsing the card never touches the quiz: after
    any sequence of clicks the selection and the verdict are what they would
    be had the header never been clicked. *)
Theorem toggling_leaves_the_quiz_alone (st : McqState) (evs : list McqEvent) :
  sameQuiz (mcqRun options correctAnswer st evs)
           (mcqRun options correctAnswer st
                   (filter (fun ev => negb (isToggle ev)) evs)).
Proof.
  assert (G : forall evs a b,
             sameQuiz a b ->
             sameQuiz (mcqRun options correctAnswer a evs)
                      (mcqRun options correctAnswer b
                              (filter (fun ev => negb (isToggle ev)) evs))).
  { clear. induction evs as [|ev evs IH]; intros a b H; [exact H|].
    cbn [mcqRun fold_left filter].
    destruct ev; cbn [isToggle negb fold_left];
      apply IH; try (now apply sameQuiz_step).
    now apply sameQuiz_toggle. }
  apply G. split; reflexivity.
Qed.

End McqFacts.

(** * The practice questions *)

Section PracticeFacts.

Variable options : list string.
Variable correctAnswer : string.

Lemma practice_invariant_step (st : PracticeState) (ev : PracticeEvent) :
  ((forall o, selectedOption st = Some o -> In o options)
   /\ (hasSubmitted st = true -> selectedOption st <> None)
   /\ (showAnswer st = true -> hasSubmitted st = true)) ->
  let st' := practiceStep options correctAnswer st ev in
  (forall o, selectedOption st' = Some o -> In o options)
  /\ (hasSubmitted st' = true -> selectedOption st' <> None)
  /\ (showAnswer st' = true -> hasSubmitted st' = true).
Proof.
  intros (Hin & Hsub & Hshow). unfold practiceStep.
  destruct (practiceAvailable options correctAnswer st ev) eqn:Hav;
    [|cbn; auto].
  destruct ev as [|o| | |]; cbn in *.
  - auto.
  - repeat split; auto; try discriminate.
    intros o' [= <-]. apply existsb_exists in Hav as (x & Hx & E).
    apply String.eqb_eq in E. now subst x.
  - repeat split; auto; try discriminate.
    destruct (selectedOption st); [discriminate|discriminate].
  - repeat split; discriminate.
  - apply andb_true_iff in Hav as [Hs _]. repeat split; auto.
Qed.

(** X15.  From the initial state, whatever the student clicks: the selected
    option is one of the options; feedback is only ever shown with an option
    selected; and the correct option is highlighted, or the worked answer
    shown, only after a submission, never before one. *)
Theorem practice_answer_needs_a_submission (evs : list PracticeEvent) :
  let st := practiceRun options correctAnswer practiceInit evs in
  (forall o, selectedOption st = Some o -> In o options)
  /\ (feedback correctAnswer st <> None -> selectedOption st <> None)
  /\ (showAnswer st = true -> hasSubmitted st = true)
  /\ (forall o,
        isOptionCorrectAndShouldHighlight correctAnswer st o = true ->
        o = correctAnswer /\ feedback correctAnswer st <> None).
Proof.
  assert (G : forall evs st,
             ((forall o, selectedOption st = Some o -> In o options)
              /\ (hasSubmitted st = true -> selectedOption st <> None)
              /\ (showAnswer st = true -> hasSubmitted st = true)) ->
             let st' := practiceRun options correctAnswer st evs in
             (forall o, selectedOption st' = Some o -> In o options)
             /\ (hasSubmitted st' = true -> selectedOption st' <> None)
             /\ (showAnswer st' = true -> hasSubmitted st' = true)).
  { clear. induction evs as [|ev evs IH]; intros st H; [exact H|].
    cbn [practiceRun fold_left]. apply IH.
    now apply practice_invariant_step. }
  intros st.
  destruct (G evs practiceInit) as (Hin & Hsub & Hshow).
  { cbn. repeat split; discriminate. }
  fold st in Hin, Hsub, Hshow.
  assert (Hfb : forall s, hasSubmitted s = true ->
                          feedback correctAnswer s <> None).
  { intros s Hs. unfold feedback. rewrite Hs. discriminate. }
  split; [exact Hin|]. split; [|split; [exact Hshow|]].
  - unfold feedback. destruct (hasSubmitted st); [auto|congruence].
  - intros o Ho. unfold isOptionCorrectAndShouldHighlight in Ho.
    apply andb_true_iff in Ho as [Hs Ho]. apply String.eqb_eq in Ho.
    split; [exact Ho|]. apply Hfb. auto.
Qed.

Lemma quizOf_step (a b : PracticeState) (ev : PracticeEvent) :
  quizOf a = quizOf b ->
  quizOf (practiceStep options correctAnswer a ev) =
  quizOf (practiceStep options correctAnswer b ev).
Proof.
  unfold quizOf. intros [= Hsel Hsub Hshow].
  unfold practiceStep, practiceAvailable, isCorrect.
  rewrite Hsel, Hsub.
  destruct ev as [|o| | |];
    repeat match goal with
           | |- context [if ?c then _ else _] => destruct c
           end;
    cbn; congruence.
Qed.

(** X16.  Expanding and collapsing a practice question does not reset or
    change the quiz: after any sequence of clicks the selection, the
    submitted flag and the show-answer flag are what they would be had the
    header never been clicked. *)
Theorem practice_toggle_keeps_progress (st : PracticeState)
    (evs : list PracticeEvent) :
  quizOf (practiceRun options correctAnswer st evs) =
  quizOf (practiceRun options correctAnswer st
            (filter (fun ev => negb (isPToggle ev)) evs)).
Proof.
  assert (G : forall evs a b,
             quizOf a = quizOf b ->
             quizOf (practiceRun options correctAnswer a evs) =
             quizOf (practiceRun options correctAnswer b
                       (filter (fun ev => negb (isPToggle ev)) evs))).
  { clear. induction evs as [|ev evs IH]; intros a b H; [exact H|].
    cbn [practiceRun fold_left filter].
    destruct ev; cbn [isPToggle negb fold_left];
      apply IH; try (now apply quizOf_step).
    exact H. }
  now apply G.
Qed.

End PracticeFacts.

(** * The further properties at concrete inputs *)


Lemma chunking_keeps_document_order_witness :
  chunkAll (demoEnv (inr demoDocs) (demoService (Some "hi"))) demoDocs [] =
  (inr (flat_map oneChunk demoDocs),
   [] ++ map (fun d => CallChunkText (doc_text d)
                         (mkChunkConfig 900 120 (path d))) demoDocs).
Proof.
  apply (chunking_keeps_document_order
           (demoEnv (inr demoDocs) (demoService (Some "hi")))
           demoDocs oneChunk []).
  intros d [<-|[<-|[]]]; vm_compute; reflexivity.
Defined.

Lemma chunking_stops_at_first_throw_witness :
  chunkAll pickyEnv
    ([mkDocument "a" "Vectors add head to tail."]
     ++ mkDocument "b" "" :: [mkDocument "c" "Scalars have no direction."]) [] =
  (inl (mkThrown OtherError (Some "nothing to chunk")),
   [] ++ map (fun x => CallChunkText (doc_text x)
                         (mkChunkConfig 900 120 (path x)))
             ([mkDocument "a" "Vectors add head to tail."]
              ++ [mkDocument "b" ""])).
Proof.
  apply (chunking_stops_at_first_throw pickyEnv
           [mkDocument "a" "Vectors add head to tail."]
           [mkDocument "c" "Scalars have no direction."]
           (mkDocument "b" "") oneChunk).
  - intros x [<-|[]]. vm_compute. reflexivity.
  - reflexivity.
Defined.

Lemma stages_run_in_order_witness :
  exists q docs chunks top system user rest,
    fullLog (demoEnv (inr demoDocs) (demoService (Some "hi")))
            q docs chunks top system user =
    [CallReqJson; CallClassifyScope "what's the best pizza topping"] ++ rest.
Proof.
  destruct (stages_run_in_order
              (demoEnv (inr demoDocs) (demoService (Some "hi")))
              (userSays "what's the best pizza topping")
              (JsonResponse 200 demoRefusal)
              [CallReqJson; CallClassifyScope "what's the best pizza topping"])
    as (q & docs & chunks & top & system & user & rest & H & _).
  - reflexivity.
  - exists q, docs, chunks, top, system, user, rest. exact H.
Defined.

Lemma no_user_turn_is_the_empty_query_witness :
  POST (demoEnv (inr demoDocs) (demoService (Some "hi")))
       (inr (JsonObject (Some [greeting]))) [] =
  POST (demoEnv (inr demoDocs) (demoService (Some "hi")))
       (inr (JsonObject None)) [].
Proof.
  destruct (no_user_turn_is_the_empty_query
              (demoEnv (inr demoDocs) (demoService (Some "hi"))) [greeting])
    as (_ & H & _).
  - repeat constructor.
  - exact H.
Defined.

Lemma lastUserMessage_characterised_witness :
  lastUserMessage [mkChatMsg User "what is a vector"; greeting] =
  Some (mkChatMsg User "what is a vector").
Proof.
  apply (proj1 (lastUserMessage_characterised
                  [mkChatMsg User "what is a vector"; greeting])).
  exists [], [greeting]. split; [reflexivity|]. split; [reflexivity|].
  repeat constructor.
Defined.

Lemma widget_query_is_the_trimmed_input_witness :
  exists resp rest,
    POST (demoEnv (inr demoDocs) (demoService (Some "hi")))
         (inr (JsonObject (Some (w_messages askingWidget
                                 ++ [userTurn utf8Trim askingWidget])))) [] =
    (inr resp,
     CallReqJson :: CallClassifyScope "what is a vector" :: rest).
Proof.
  apply (widget_query_is_the_trimmed_input utf8Trim
           (demoEnv (inr demoDocs) (demoService (Some "hi"))) askingWidget).
  reflexivity.
Defined.

Lemma widget_shows_the_failure_witness :
  send utf8Trim askingWidget
       (fetchChat plainJson noJson
          (demoEnv (inl (mkThrown LoadError (Some "ENOENT: content/lessons")))
                   (demoService (Some "hi")))) =
  Shown
    (mkWidget
       [greeting;
        mkChatMsg User "what is a vector";
        mkChatMsg Assistant
          "Sorry — something went wrong.

Debug hint: ENOENT: content/lessons"]
       "" false).
Proof.
  apply (widget_shows_the_failure utf8Trim
           (demoEnv (inl (mkThrown LoadError (Some "ENOENT: content/lessons")))
                    (demoService (Some "hi")))
           plainJson noJson askingWidget
           (mkThrown LoadError (Some "ENOENT: content/lessons"))).
  - reflexivity.
  - apply LoadFails with (d := mkScope true ""); reflexivity.
Defined.

Lemma widget_shows_the_reply_witness :
  send utf8Trim askingWidget
       (fetchChat plainJson noJson
          (demoEnv (inr demoDocs) (demoService (Some "hi")))) =
  Shown
    (mkWidget
       [greeting; mkChatMsg User "what is a vector"; mkChatMsg Assistant "hi"]
       "" false).
Proof.
  eapply (widget_shows_the_reply utf8Trim
            (demoEnv (inr demoDocs) (demoService (Some "hi")))
            plainJson noJson askingWidget "hi").
  - reflexivity.
  - vm_compute. reflexivity.
Defined.

Lemma correct_answer_locks_the_card_witness :
  status (mcqRun ["a"; "b"; "c"] (ByText "c") (mkMcq true (Some 2) Correct)
            [Select 0; Submit; TryAgain; Toggle]) = Correct
  /\ selectedIndex
       (mcqRun ["a"; "b"; "c"] (ByText "c") (mkMcq true (Some 2) Correct)
          [Select 0; Submit; TryAgain; Toggle]) = Some 2.
Proof.
  apply (correct_answer_locks_the_card ["a"; "b"; "c"] (ByText "c")
           (mkMcq true (Some 2) Correct) [Select 0; Submit; TryAgain; Toggle]).
  reflexivity.
Defined.

Lemma verdict_matches_selection_witness :
  exists i,
    selectedIndex (mcqRun ["a"; "b"; "b"] (ByText "b") (mcqInit false)
                     [Select 2; Submit; Select 1; Submit]) = Some i
    /\ i < 3
    /\ nth_error ["a"; "b"; "b"] i = Some "b"
    /\ forall j, j < i -> nth_error ["a"; "b"; "b"] j <> Some "b".
Proof.
  destruct (verdict_matches_selection ["a"; "b"; "b"] (ByText "b") false
              [Select 2; Submit; Select 1; Submit]) as [Hc _].
  destruct (Hc eq_refl) as (i & Hsel & Hlt & Hnth & Hfirst).
  exists i. auto.
Defined.

Lemma ungradable_answer_is_never_correct_witness :
  status (mcqRun ["a"; "b"] (ByText "z") (mcqInit false)
            ([Select 0; Submit; TryAgain] ++ [Select 1; Submit])) = Wrong.
Proof.
  apply (ungradable_answer_is_never_correct ["a"; "b"] (ByText "z") false
           [Select 0; Submit; TryAgain] 1).
  - intros [H|[H|[]]]; discriminate.
  - cbn. lia.
Defined.

Lemma practice_answer_needs_a_submission_witness :
  hasSubmitted
    (practiceRun uncertaintyOptions uncertaintyAnswer practiceInit
       [PSelect "± 0.002 m"; PSubmit; PShowAnswer]) = true.
Proof.
  destruct (practice_answer_needs_a_submission
              uncertaintyOptions uncertaintyAnswer
              [PSelect "± 0.002 m"; PSubmit; PShowAnswer])
    as (_ & _ & Hshow & _).
  apply Hshow. reflexivity.
Defined.

Lemma widget_conversation_alternates_witness :
  exists st,
    widgetRun utf8Trim widgetInit demoEvents = Shown st
    /\ w_loading st = false
    /\ exists n,
         map role (w_messages st) = Assistant :: exchangeRoles n
         /\ n <= sendsTried demoEvents.
Proof.
  eexists. split; [vm_compute; reflexivity|].
  apply (widget_conversation_alternates utf8Trim demoEvents).
  vm_compute. reflexivity.
Defined.
